(** * Laser2D: a simulated planar range-bearing sensor

    Shallow embedding of [Chapter 06. Mapping/laser/laser2D.py]: the
    constructor, [set_pose], the observation routine [take_observation]
    and the plotting routine [draw_observation], with their properties.

    Numbers.  The Python code computes with IEEE binary64 values (numpy
    and [math]).  They are idealised here as the real numbers of the
    Standard Library: [+], [-], [*], [/], [sqrt], [cos], [sin] are the
    exact operations, [np.pi] is [PI], [math.floor] is [Zfloor], and
    [math.atan2] is the two-argument arctangent [atan2] defined below from
    [atan].  Rounding, overflow, NaN and signed zeros are outside the
    model.

    Faults.  Python exceptions are the constructors of [exn]; a
    computation that can raise returns a [result].

    State.  The objects a call can reach (the sensor, the map array and
    numpy's global random generator) form a [Store]; code that touches
    them runs in the state-and-exception monad [Py].  A matplotlib axes
    object is the list of the [plot] calls it has received. *)

From Stdlib Require Import Reals Lra Lia ZArith.
From stdpp Require Import base list strings.

Open Scope R_scope.

(** ** Exceptions and results *)

Inductive exn : Type :=
| ZeroDivisionError   (* float division [a / b] with [b == 0]            *)
| FloatingPointError  (* numpy division by zero under [divide='raise']   *)
| ValueError          (* [np.zeros] with a negative dimension            *)
| IndexError.         (* subscript out of range                          *)

Inductive result (A : Type) : Type :=
| Ok (a : A)
| Raise (e : exn).
Arguments Ok {A} a.
Arguments Raise {A} e.

Definition rbind {A B} (m : result A) (k : A -> result B) : result B :=
  match m with
  | Ok a => k a
  | Raise e => Raise e
  end.

Notation "x <- m ;; k" := (rbind m (fun x => k))
  (at level 62, m at next level, right associativity).

(** ** Comparisons as booleans *)

Definition Rltb (x y : R) : bool := if Rlt_dec x y then true else false.
Definition Rgtb (x y : R) : bool := Rltb y x.
Definition Reqb (x y : R) : bool := if Req_dec_T x y then true else false.

(** ** Library functions used by the source *)

(** [np.sign]: -1, 0 or 1. *)
Definition np_sign (x : R) : R :=
  if Rltb x 0 then -1 else if Rgtb x 0 then 1 else 0.

(** [math.atan2 y x]: the angle of the point [(x, y)], in (-PI, PI]. *)
Definition atan2 (y x : R) : R :=
  if Rgtb x 0 then atan (y / x)
  else if Rltb x 0 then
    if Rltb y 0 then atan (y / x) - PI else atan (y / x) + PI
  else if Rgtb y 0 then PI / 2
  else if Rltb y 0 then - (PI / 2)
  else 0.

(** Python's [a / b] on floats. *)
Definition py_truediv (a b : R) : result R :=
  if Reqb b 0 then Raise ZeroDivisionError else Ok (a / b).

(** numpy's [a / b].  A zero divisor gives inf or nan and a
    RuntimeWarning by default, and raises under [np.seterr(divide='raise',
    invalid='raise')]; the model takes the raising setting, so that a
    division by zero is visible in the result. *)
Definition np_divide (a b : R) : result R :=
  if Reqb b 0 then Raise FloatingPointError else Ok (a / b).

(** [l[i]] on a sequence. *)
Definition getitem {A} (l : list A) (i : nat) : result A :=
  match l !! i with
  | Some a => Ok a
  | None => Raise IndexError
  end.

(** [range(n)] for an integer [n]: empty when [n <= 0]. *)
Definition range (n : Z) : list nat := seq 0 (Z.to_nat n).

(** ** Data *)

(** A map is a 2xN array: row 0 the x and row 1 the y coordinates, one
    column per point.  It is kept as the list of its columns. *)
Abbreviation Point := (R * R)%type (only parsing).
Abbreviation Map := (list (R * R)) (only parsing).

(** The pose is a column vector (x, y, theta). *)
Record Pose : Type := mkPose { pose_x : R; pose_y : R; pose_theta : R }.

(** A 2x2 covariance matrix, [cov_ij] standing for [noise_cov[i][j]]. *)
Record Cov : Type := mkCov { cov_00 : R; cov_01 : R; cov_10 : R; cov_11 : R }.

(** An array of reals as the list of its rows; [np.array([])] has none. *)
Abbreviation ndarray := (list (list R)) (only parsing).

Record Laser2D : Type := mkLaser2D {
  FOV : R;
  resolution : R;
  max_distance : R;
  noise_cov : Cov;
  pose : Pose;
  last_z : ndarray
}.

(** numpy's global generator: the standard normal samples it will
    deliver, and how many have been drawn. *)
Record Rng : Type := mkRng { samples : nat -> R; cursor : nat }.

Record Store : Type := mkStore {
  obj_self : Laser2D;
  obj_map : Map;
  np_random : Rng
}.

(** ** The monad of calls *)

Definition Py (A : Type) : Type := Store -> result A * Store.

Definition ret {A} (a : A) : Py A := fun s => (Ok a, s).

Definition bind {A B} (m : Py A) (k : A -> Py B) : Py B :=
  fun s => match m s with
           | (Ok a, s') => k a s'
           | (Raise e, s') => (Raise e, s')
           end.

Notation "x <~ m ;; k" := (bind m (fun x => k))
  (at level 62, m at next level, right associativity).

Definition lift {A} (r : result A) : Py A := fun s => (r, s).

Definition load_self : Py Laser2D := fun s => (Ok (obj_self s), s).
Definition load_map : Py Map := fun s => (Ok (obj_map s), s).

Definition store_self (l : Laser2D) : Py unit :=
  fun s => (Ok tt, mkStore l (obj_map s) (np_random s)).

(** [np.random.normal(loc, scale)]: [loc + scale * g] for the next
    standard normal sample [g]. *)
Definition np_random_normal (loc scale : R) : Py R :=
  fun s =>
    let g := np_random s in
    (Ok (loc + scale * samples g (cursor g)),
     mkStore (obj_self s) (obj_map s) (mkRng (samples g) (S (cursor g)))).

(** [for i in l: s = body i s], in either monad. *)
Fixpoint rfor {St : Type} (l : list nat) (body : nat -> St -> result St)
    (s : St) : result St :=
  match l with
  | [] => Ok s
  | i :: l' => s' <- body i s ;; rfor l' body s'
  end.

Fixpoint pfor {St : Type} (l : list nat) (body : nat -> St -> Py St)
    (s : St) : Py St :=
  match l with
  | [] => ret s
  | i :: l' => s' <~ body i s ;; pfor l' body s'
  end.

(** ** The class Laser2D *)

(** [__init__] *)
Definition init (FOV resolution max_distance : R) (noise_cov : Cov)
    (pose : Pose) : Laser2D :=
  mkLaser2D FOV resolution max_distance noise_cov pose [].

(** [set_pose] *)
Definition set_pose (pose : Pose) : Py unit :=
  self <~ load_self ;;
  store_self (mkLaser2D (FOV self) (resolution self) (max_distance self)
                (noise_cov self) pose (last_z self)).

(** The helper [det] of [take_observation]. *)
Definition det (a b : R * R) : R := fst a * snd b - snd a * fst b.

(** The two-branch "angle warp". *)
Definition angle_warp (phi : R) : R :=
  if Rgtb phi PI then phi - 2 * PI
  else if Rltb phi (- PI) then phi + 2 * PI
  else phi.

(** [seg_distance]: the length of every segment of the map, from
    [map[:, :-1]] and [map[:, 1:]]. *)
Definition seg_lengths (map : Map) : list R :=
  zip_with (fun p q => sqrt ((fst p - fst q) ^ 2 + (snd p - snd q) ^ 2))
    (removelast map) (tail map).

(** [z = np.zeros([rows, cols])] *)
Definition np_zeros (rows : nat) (cols : Z) : result ndarray :=
  if (cols <? 0)%Z then Raise ValueError
  else Ok (replicate rows (replicate (Z.to_nat cols) 0)).

(** [z[r, c] = v] *)
Definition setitem (z : ndarray) (r c : nat) (v : R) : result ndarray :=
  row <- getitem z r ;;
  if (c <? length row)%nat then Ok (<[r := <[c := v]> row]> z)
  else Raise IndexError.

(** Lines 50-54: the world-frame angle of beam [i_beam], warped. *)
Definition beam_phi (self : Laser2D) (i_beam : nat) : R :=
  angle_warp (INR i_beam * resolution self - FOV self / 2
              + pose_theta (pose self)).

(** Lines 66-79: the common point of the line through map points
    [i_line], [i_line + 1] and the line of the beam; [None] stands for the
    [continue] of line 75. *)
Definition intersection (self : Laser2D) (map : Map) (x_beam y_beam : R)
    (i_line : nat) : result (option (R * R)) :=
  p1 <- getitem map i_line ;;
  p2 <- getitem map (i_line + 1) ;;
  let px := pose_x (pose self) in
  let py := pose_y (pose self) in
  let xdiff := (fst p1 - fst p2, px - x_beam) in
  let ydiff := (snd p1 - snd p2, py - y_beam) in
  let div := det xdiff ydiff in
  if Reqb div 0 then Ok None
  else
    let de := (det p1 p2, det (px, py) (x_beam, y_beam)) in
    x <- np_divide (det de xdiff) div ;;
    y <- np_divide (det de ydiff) div ;;
    Ok (Some (x, y)).

(** Line 94-98: the bearing of the intersection seen from the sensor. *)
Definition hit_phi (self : Laser2D) (x y : R) : R :=
  angle_warp (atan2 (0 - (x - pose_x (pose self)))
                    ((y - pose_y (pose self)) - 0)
              + 90 * PI / 180).

(** Lines 63-104: one turn of the loop over the lines, from the current
    candidate [d] to the next one. *)
Definition scan_line (self : Laser2D) (map : Map) (seg_distance : list R)
    (phi x_beam y_beam : R) (i_line : nat) (d : R) : result R :=
  hit <- intersection self map x_beam y_beam i_line ;;
  match hit with
  | None => Ok d
  | Some (x, y) =>
      let px := pose_x (pose self) in
      let py := pose_y (pose self) in
      let d_to_intersect := sqrt ((px - x) ^ 2 + (py - y) ^ 2) in
      p1 <- getitem map i_line ;;
      let d1 := sqrt ((fst p1 - x) ^ 2 + (snd p1 - y) ^ 2) in
      p2 <- getitem map (i_line + 1) ;;
      let d2 := sqrt ((fst p2 - x) ^ 2 + (snd p2 - y) ^ 2) in
      let th_for_corners := 5 / 100 in
      len <- getitem seg_distance i_line ;;
      if Rltb d1 (len + th_for_corners) && Rltb d2 (len + th_for_corners)
      then
        let phi_m := hit_phi self x y in
        if Reqb (np_sign phi) (np_sign phi_m) then
          if Rltb d_to_intersect d then Ok d_to_intersect else Ok d
        else Ok d
      else Ok d
  end.

(** Lines 50-104: the measurement of beam [i_beam] before noise. *)
Definition beam_range (self : Laser2D) (map : Map) (seg_distance : list R)
    (i_beam : nat) : result R :=
  let phi := beam_phi self i_beam in
  let x_beam := pose_x (pose self) + max_distance self * cos phi in
  let y_beam := pose_y (pose self) + max_distance self * sin phi in
  rfor (range (Z.of_nat (length map) - 1))
    (scan_line self map seg_distance phi x_beam y_beam)
    (max_distance self).

(** Line 108: the bearing of beam [i_beam] before noise. *)
Definition beam_bearing (self : Laser2D) (i_beam : nat) : R :=
  INR i_beam * resolution self - FOV self / 2.

(** Lines 47-108: one turn of the loop over the beams. *)
Definition beam_step (self : Laser2D) (map : Map) (seg_distance : list R)
    (i_beam : nat) (z : ndarray) : Py ndarray :=
  d <~ lift (beam_range self map seg_distance i_beam) ;;
  n0 <~ np_random_normal 0 (sqrt (cov_00 (noise_cov self))) ;;
  z <~ lift (setitem z 0 i_beam (d + n0)) ;;
  n1 <~ np_random_normal 0 (sqrt (cov_11 (noise_cov self))) ;;
  lift (setitem z 1 i_beam (beam_bearing self i_beam + n1)).

(** [n_beams] of line 42, for a nonzero resolution. *)
Definition n_beams (self : Laser2D) : Z :=
  (Zfloor (FOV self / resolution self) + 1)%Z.

(** [take_observation(self, map)] *)
Definition take_observation : Py ndarray :=
  self <~ load_self ;;
  map <~ load_map ;;
  q <~ lift (py_truediv (FOV self) (resolution self)) ;;
  let n_beams := (Zfloor q + 1)%Z in
  let seg_distance := seg_lengths map in
  z <~ lift (np_zeros 2 n_beams) ;;
  pfor (range n_beams) (beam_step self map seg_distance) z.

(** ** Drawing *)

(** One call of [ax.plot]: the x and y data, the format string and the
    [linewidth] keyword when it is given.  An axes object is the list of
    the calls it has received, oldest first. *)
Record PlotCall : Type := mkPlot {
  xdata : list R;
  ydata : list R;
  fmt : string;
  linewidth : option R
}.
Abbreviation Axes := (list PlotCall) (only parsing).

(** [z.shape[1]]: an array without rows, as [np.array([])], has a
    one-entry shape. *)
Definition np_shape1 (z : ndarray) : result Z :=
  match z with
  | [] => Raise IndexError
  | row :: _ => Ok (Z.of_nat (length row))
  end.

(** [z[:, i]] *)
Fixpoint column (z : ndarray) (i : nat) : result (list R) :=
  match z with
  | [] => Ok []
  | row :: z' => v <- getitem row i ;; c <- column z' i ;; Ok (v :: c)
  end.

(** Lines 122-126: one turn of the loop of [draw_observation]. *)
Definition draw_beam (z : ndarray) (pose : Pose) (i : nat) (ax : Axes)
  : result Axes :=
  z_i <- column z i ;;
  r <- getitem z_i 0 ;;
  b <- getitem z_i 1 ;;
  let x := pose_x pose + r * cos (b + pose_theta pose) in
  r' <- getitem z_i 0 ;;
  b' <- getitem z_i 1 ;;
  let y := pose_y pose + r' * sin (b' + pose_theta pose) in
  Ok (ax ++ [mkPlot [x; pose_x pose] [y; pose_y pose] "g--" (Some 1);
             mkPlot [x] [y] "ro" None]).

(** A loop over an axes object; what was drawn before a fault stays. *)
Fixpoint draw_loop (l : list nat) (body : nat -> Axes -> result Axes)
    (ax : Axes) : result unit * Axes :=
  match l with
  | [] => (Ok tt, ax)
  | i :: l' =>
      match body i ax with
      | Ok ax' => draw_loop l' body ax'
      | Raise e => (Raise e, ax)
      end
  end.

(** [draw_observation(self, z, pose, fig, ax)]; [self] and [fig] are not
    used by the body. *)
Definition draw_observation (z : ndarray) (pose : Pose) (ax : Axes)
  : result unit * Axes :=
  match np_shape1 z with
  | Ok n => draw_loop (range n) (draw_beam z pose) ax
  | Raise e => (Raise e, ax)
  end.

(** ** Notions used in the statements *)

(** The beam count is defined: the division of line 42 and [np.zeros] of
    line 44 both go through. *)
Definition beam_count_ok (self : Laser2D) : Prop :=
  resolution self <> 0 /\ (0 <= n_beams self)%Z.

(** The end point of beam [i_beam] (lines 57-58). *)
Definition beam_end (self : Laser2D) (i_beam : nat) : R * R :=
  (pose_x (pose self) + max_distance self * cos (beam_phi self i_beam),
   pose_y (pose self) + max_distance self * sin (beam_phi self i_beam)).

(** The determinant [div] of line 73 for a segment [p1 p2]. *)
Definition line_div (self : Laser2D) (p1 p2 : Point) (x_beam y_beam : R) : R :=
  det (fst p1 - fst p2, pose_x (pose self) - x_beam)
      (snd p1 - snd p2, pose_y (pose self) - y_beam).

(** The point of lines 77-79 for a segment [p1 p2], when [div] is not 0. *)
Definition cross_point (self : Laser2D) (p1 p2 : Point) (x_beam y_beam : R)
  : R * R :=
  let px := pose_x (pose self) in
  let py := pose_y (pose self) in
  let xdiff := (fst p1 - fst p2, px - x_beam) in
  let ydiff := (snd p1 - snd p2, py - y_beam) in
  let de := (det p1 p2, det (px, py) (x_beam, y_beam)) in
  (det de xdiff / det xdiff ydiff, det de ydiff / det xdiff ydiff).

(** Distance from the sensor to a point. *)
Definition dist_to (self : Laser2D) (x y : R) : R :=
  sqrt ((pose_x (pose self) - x) ^ 2 + (pose_y (pose self) - y) ^ 2).

(** The segment-membership check of lines 85-90: the point is closer than
    the segment length plus 0.05 to both ends of segment [i_line]. *)
Definition on_segment (map : Map) (i_line : nat) (x y : R) : Prop :=
  exists p1 p2 len,
    map !! i_line = Some p1 /\ map !! (i_line + 1)%nat = Some p2 /\
    seg_lengths map !! i_line = Some len /\
    sqrt ((fst p1 - x) ^ 2 + (snd p1 - y) ^ 2) < len + 5 / 100 /\
    sqrt ((fst p2 - x) ^ 2 + (snd p2 - y) ^ 2) < len + 5 / 100.

(** The direction check of lines 94-100. *)
Definition same_side (self : Laser2D) (phi x y : R) : Prop :=
  np_sign phi = np_sign (hit_phi self x y).

(** [dist] is the distance to an intersection of beam [i_beam] with
    segment [i_line] that passes both checks. *)
Definition valid_hit (self : Laser2D) (map : Map) (i_beam i_line : nat)
    (dist : R) : Prop :=
  exists x y,
    intersection self map (fst (beam_end self i_beam))
      (snd (beam_end self i_beam)) i_line = Ok (Some (x, y)) /\
    on_segment map i_line x y /\
    same_side self (beam_phi self i_beam) x y /\
    dist = dist_to self x y.

(** [d] is the least of [max_distance] and the valid hits of the beam. *)
Definition closest_hit (self : Laser2D) (map : Map) (i_beam : nat) (d : R)
  : Prop :=
  (d = max_distance self \/ exists i_line, valid_hit self map i_beam i_line d)
  /\ d <= max_distance self
  /\ forall i_line dist, valid_hit self map i_beam i_line dist -> d <= dist.

(** The same for the first [k] segments only: what the loop over the
    lines has established after [k] turns. *)
Definition closest_upto (self : Laser2D) (map : Map) (i_beam : nat) (k : nat)
    (d : R) : Prop :=
  (d = max_distance self
   \/ exists i_line, (i_line < k)%nat /\ valid_hit self map i_beam i_line d)
  /\ d <= max_distance self
  /\ forall i_line dist,
       (i_line < k)%nat -> valid_hit self map i_beam i_line dist -> d <= dist.

(** The range of beam [i_beam] before noise, as a number. *)
Definition noiseless_range (self : Laser2D) (map : Map) (i_beam : nat) : R :=
  match beam_range self map (seg_lengths map) i_beam with
  | Ok d => d
  | Raise _ => 0
  end.

(** The two draws of beam [i_beam], when the call starts with generator
    [g]: range noise first, bearing noise second. *)
Definition range_noise (self : Laser2D) (g : Rng) (i_beam : nat) : R :=
  0 + sqrt (cov_00 (noise_cov self)) * samples g (cursor g + 2 * i_beam)%nat.
Definition bearing_noise (self : Laser2D) (g : Rng) (i_beam : nat) : R :=
  0 + sqrt (cov_11 (noise_cov self))
      * samples g (cursor g + 2 * i_beam + 1)%nat.

(** The store after [k] more draws from the generator. *)
Definition drawn (s : Store) (k : nat) : Store :=
  mkStore (obj_self s) (obj_map s)
    (mkRng (samples (np_random s)) (cursor (np_random s) + k)).

(** The signed distance of (x, y) from [p1] along the direction of [p2]. *)
Definition along (p1 p2 : Point) (x y : R) : R :=
  ((x - fst p1) * (fst p2 - fst p1) + (y - snd p1) * (snd p2 - snd p1))
  / sqrt ((fst p1 - fst p2) ^ 2 + (snd p1 - snd p2) ^ 2).

(** The point at distance [d] from the pose in direction [phi]. *)
Definition ray_point (p : Pose) (phi d : R) : R * R :=
  (pose_x p + d * cos phi, pose_y p + d * sin phi).

(** The marker that [draw_observation] puts at a point. *)
Definition marker (c : R * R) : PlotCall := mkPlot [fst c] [snd c] "ro" None.

(** The dashed line that [draw_observation] draws from a point to the
    pose. *)
Definition dashed_line (c : R * R) (p : Pose) : PlotCall :=
  mkPlot [fst c; pose_x p] [snd c; pose_y p] "g--" (Some 1).

(** The end points that [draw_observation] computes for a table of two
    rows, and the plot calls it makes for a list of end points. *)
Definition end_points (ranges bearings : list R) (p : Pose) : list (R * R) :=
  zip_with (fun r b => ray_point p (b + pose_theta p) r) ranges bearings.
Definition artists (pts : list (R * R)) (p : Pose) : list PlotCall :=
  flat_map (fun c => [dashed_line c p; marker c]) pts.

(** A map and a sensor moved by the offset (a, b). *)
Definition shift_map (a b : R) (map : Map) : Map :=
  (fun p => (fst p + a, snd p + b)) <$> map.
Definition shift_pose (a b : R) (p : Pose) : Pose :=
  mkPose (pose_x p + a) (pose_y p + b) (pose_theta p).

(** ** Scenarios *)

Definition zero_cov : Cov := mkCov 0 0 0 0.

(** A wall at x = 5 from y = -5 to y = 5, seen from the origin by a
    sensor of three beams. *)
Definition wall_sensor : Laser2D := init PI (PI / 2) 10 zero_cov (mkPose 0 0 0).
Definition wall_map : Map := [(5, -5); (5, 5)].

(** A sensor whose first beam points at exactly -PI. *)
Definition full_turn_sensor : Laser2D :=
  init (2 * PI) 1 10 zero_cov (mkPose 0 0 0).

(** A wall at x = -5, straight in the path of a beam along -x. *)
Definition back_wall_map : Map := [(-5, -5); (-5, 5)].

(** A generator that delivers the samples 1, 2, 3, ... *)
Definition counting_rng : Rng := mkRng (fun k => INR (S k)) 0.

(** ** Basic facts *)

Lemma Rltb_true x y : Rltb x y = true <-> x < y.
Proof. unfold Rltb. destruct (Rlt_dec x y); split; intros; try done. Qed.

Lemma Rltb_false x y : Rltb x y = false <-> y <= x.
Proof.
  unfold Rltb. destruct (Rlt_dec x y); split; intros; try done; lra.
Qed.

Lemma Reqb_true x y : Reqb x y = true <-> x = y.
Proof. unfold Reqb. destruct (Req_dec_T x y); split; intros; done. Qed.

Lemma Reqb_false x y : Reqb x y = false <-> x <> y.
Proof. unfold Reqb. destruct (Req_dec_T x y); split; intros; done. Qed.

Lemma Rltb_lt x y : x < y -> Rltb x y = true.
Proof. apply Rltb_true. Qed.

Lemma Rltb_ge x y : y <= x -> Rltb x y = false.
Proof. apply Rltb_false. Qed.

Lemma Reqb_refl x : Reqb x x = true.
Proof. by apply Reqb_true. Qed.

Lemma Reqb_neq x y : x <> y -> Reqb x y = false.
Proof. apply Reqb_false. Qed.

Lemma getitem_Some {A} (l : list A) i a : l !! i = Some a -> getitem l i = Ok a.
Proof. unfold getitem. by intros ->. Qed.

Lemma getitem_raise {A} (l : list A) i e :
  getitem l i = Raise e -> e = IndexError.
Proof. unfold getitem. destruct (l !! i); by inversion 1. Qed.

Lemma seg_lengths_length (map : Map) :
  length (seg_lengths map) = (length map - 1)%nat.
Proof.
  unfold seg_lengths. rewrite length_zip_with.
  destruct map as [|p map]; [done|].
  rewrite removelast_firstn_len, length_take. simpl length.
  simpl Init.Nat.pred. lia.
Qed.


(** ** Loops *)

Lemma rfor_seq_inv {St : Type} (P : nat -> St -> Prop)
    (body : nat -> St -> result St) (n : nat) (s0 : St) :
  P 0%nat s0 ->
  (forall k s, (k < n)%nat -> P k s -> exists s', body k s = Ok s' /\ P (S k) s') ->
  exists s', rfor (seq 0 n) body s0 = Ok s' /\ P n s'.
Proof.
  intros H0 Hstep.
  assert (Hgen : forall m a s, (a + m = n)%nat -> P a s ->
            exists s', rfor (seq a m) body s = Ok s' /\ P n s').
  { induction m as [|m IH]; intros a s Ha HP; simpl.
    - exists s. replace n with a by lia. done.
    - destruct (Hstep a s) as (s1 & -> & HP1); [lia|done|]. simpl.
      apply IH; [lia|done]. }
  by apply Hgen.
Qed.

(** ** The loop over the lines *)

Section Lines.
Variables (self : Laser2D) (map : Map).

Lemma intersection_eq x_beam y_beam i_line p1 p2 :
  map !! i_line = Some p1 -> map !! (i_line + 1)%nat = Some p2 ->
  intersection self map x_beam y_beam i_line =
    Ok (if Reqb (line_div self p1 p2 x_beam y_beam) 0 then None
        else Some (cross_point self p1 p2 x_beam y_beam)).
Proof.
  intros H1 H2. unfold intersection.
  rewrite (getitem_Some _ _ _ H1), (getitem_Some _ _ _ H2). simpl.
  fold (line_div self p1 p2 x_beam y_beam).
  destruct (Reqb (line_div self p1 p2 x_beam y_beam) 0) eqn:E; [done|].
  unfold np_divide. rewrite E. done.
Qed.

Lemma scan_line_eq phi x_beam y_beam i_line d p1 p2 len :
  map !! i_line = Some p1 -> map !! (i_line + 1)%nat = Some p2 ->
  seg_lengths map !! i_line = Some len ->
  scan_line self map (seg_lengths map) phi x_beam y_beam i_line d =
    Ok (if Reqb (line_div self p1 p2 x_beam y_beam) 0 then d
        else
          let c := cross_point self p1 p2 x_beam y_beam in
          if Rltb (sqrt ((fst p1 - fst c) ^ 2 + (snd p1 - snd c) ^ 2))
                  (len + 5 / 100)
             && Rltb (sqrt ((fst p2 - fst c) ^ 2 + (snd p2 - snd c) ^ 2))
                     (len + 5 / 100)
          then
            if Reqb (np_sign phi) (np_sign (hit_phi self (fst c) (snd c)))
            then
              if Rltb (dist_to self (fst c) (snd c)) d
              then dist_to self (fst c) (snd c) else d
            else d
          else d).
Proof.
  intros H1 H2 H3. unfold scan_line.
  rewrite (intersection_eq _ _ _ _ _ H1 H2). cbn [rbind].
  destruct (Reqb (line_div self p1 p2 x_beam y_beam) 0); [done|].
  cbv zeta. destruct (cross_point self p1 p2 x_beam y_beam) as [x y].
  rewrite (getitem_Some _ _ _ H1), (getitem_Some _ _ _ H2),
    (getitem_Some _ _ _ H3). cbn [rbind fst snd].
  fold (dist_to self x y).
  repeat match goal with |- context [if ?b then _ else _] => destruct b end;
    done.
Qed.

(** Every segment index of the loop has its two points and its length. *)
Lemma segment_lookup i_line :
  (i_line < Z.to_nat (Z.of_nat (length map) - 1))%nat ->
  exists p1 p2 len,
    map !! i_line = Some p1 /\ map !! (i_line + 1)%nat = Some p2 /\
    seg_lengths map !! i_line = Some len.
Proof.
  intros Hi.
  destruct (lookup_lt_is_Some_2 map i_line) as [p1 H1]; [lia|].
  destruct (lookup_lt_is_Some_2 map (i_line + 1)) as [p2 H2]; [lia|].
  destruct (lookup_lt_is_Some_2 (seg_lengths map) i_line) as [len H3].
  { rewrite seg_lengths_length. lia. }
  by exists p1, p2, len.
Qed.

Lemma scan_line_total phi x_beam y_beam i_line d :
  (i_line < Z.to_nat (Z.of_nat (length map) - 1))%nat ->
  exists d', scan_line self map (seg_lengths map) phi x_beam y_beam
               i_line d = Ok d'.
Proof.
  intros Hi. destruct (segment_lookup _ Hi) as (p1 & p2 & len & H1 & H2 & H3).
  rewrite (scan_line_eq _ _ _ _ _ _ _ _ H1 H2 H3). eauto.
Qed.

Lemma beam_range_total i_beam :
  exists d, beam_range self map (seg_lengths map) i_beam = Ok d.
Proof.
  unfold beam_range, range.
  destruct (rfor_seq_inv (fun _ _ => True)
              (scan_line self map (seg_lengths map) (beam_phi self i_beam)
                 (pose_x (pose self)
                  + max_distance self * cos (beam_phi self i_beam))
                 (pose_y (pose self)
                  + max_distance self * sin (beam_phi self i_beam)))
              (Z.to_nat (Z.of_nat (length map) - 1)) (max_distance self))
    as (d & Hd & _); [done| |by exists d].
  intros k s Hk _. destruct (scan_line_total (beam_phi self i_beam)
    (pose_x (pose self) + max_distance self * cos (beam_phi self i_beam))
    (pose_y (pose self) + max_distance self * sin (beam_phi self i_beam))
    k s Hk) as [d' Hd']. eauto.
Qed.

Lemma beam_range_noiseless i_beam :
  beam_range self map (seg_lengths map) i_beam
  = Ok (noiseless_range self map i_beam).
Proof.
  unfold noiseless_range.
  destruct (beam_range_total i_beam) as [d ->]. done.
Qed.
End Lines.

(** ** The loop over the beams *)

Section Beams.
Variables (self : Laser2D) (map : Map).

Lemma beam_step_run i_beam (r b : list R) (s : Store) :
  (i_beam < length r)%nat -> (i_beam < length b)%nat ->
  beam_step self map (seg_lengths map) i_beam [r; b] s =
    (Ok [ <[i_beam := noiseless_range self map i_beam
                      + (0 + sqrt (cov_00 (noise_cov self))
                             * samples (np_random s) (cursor (np_random s)))]> r;
          <[i_beam := beam_bearing self i_beam
                      + (0 + sqrt (cov_11 (noise_cov self))
                             * samples (np_random s)
                                 (S (cursor (np_random s))))]> b ],
     drawn s 2).
Proof.
  intros Hr Hb. unfold beam_step, bind, lift, np_random_normal, setitem.
  rewrite beam_range_noiseless. cbn [getitem lookup list_lookup rbind].
  apply Nat.ltb_lt in Hr as ->.
  cbn [obj_self obj_map np_random samples cursor list_insert insert
       getitem lookup list_lookup rbind].
  apply Nat.ltb_lt in Hb as ->.
  unfold drawn. do 4 f_equal. lia.
Qed.

Lemma pfor_beams (m : nat) :
  forall (k : nat) (r b : list R) (s : Store),
    (k + m <= length r)%nat -> length b = length r ->
    exists r' b',
      pfor (seq k m) (beam_step self map (seg_lengths map)) [r; b] s
        = (Ok [r'; b'], drawn s (2 * m))
      /\ length r' = length r /\ length b' = length b
      /\ (forall j, (k <= j < k + m)%nat ->
            r' !! j = Some (noiseless_range self map j
                            + (0 + sqrt (cov_00 (noise_cov self))
                                   * samples (np_random s)
                                       (cursor (np_random s)
                                        + 2 * (j - k))%nat))
            /\ b' !! j = Some (beam_bearing self j
                               + (0 + sqrt (cov_11 (noise_cov self))
                                      * samples (np_random s)
                                          (cursor (np_random s)
                                           + 2 * (j - k) + 1)%nat)))
      /\ (forall j, ~ (k <= j < k + m)%nat ->
            r' !! j = r !! j /\ b' !! j = b !! j).
Proof.
  induction m as [|m IH]; intros k r b s Hk Hb.
  - exists r, b. cbn [seq pfor]. unfold ret, drawn.
    destruct s as [o mp [sm c]]. cbn.
    rewrite Nat.add_0_r. repeat split; try done; lia.
  - cbn [seq pfor]. unfold bind at 1.
    rewrite beam_step_run by lia.
    set (r1 := <[k := _]> r). set (b1 := <[k := _]> b).
    destruct (IH (S k) r1 b1 (drawn s 2)) as (r' & b' & Hrun & Hlr & Hlb & Hin & Hout).
    { unfold r1. rewrite length_insert. lia. }
    { unfold r1, b1. rewrite !length_insert. done. }
    exists r', b'. split; [|split; [|split; [|split]]].
    + rewrite Hrun. unfold drawn. cbn. do 3 f_equal. lia.
    + rewrite Hlr. unfold r1. by rewrite length_insert.
    + rewrite Hlb. unfold b1. by rewrite length_insert.
    + intros j Hj. destruct (decide (j = k)) as [->|Hne].
      * destruct (Hout k) as [-> ->]; [lia|].
        unfold r1, b1. rewrite !list_lookup_insert_eq by lia.
        replace (k - k)%nat with 0%nat by lia.
        rewrite Nat.mul_0_r, Nat.add_0_r, Nat.add_1_r. done.
      * destruct (Hin j) as [-> ->]; [lia|].
        cbn [drawn np_random samples cursor].
        replace (cursor (np_random s) + 2 + 2 * (j - S k))%nat
          with (cursor (np_random s) + 2 * (j - k))%nat by lia.
        done.
    + intros j Hj. destruct (Hout j) as [-> ->]; [lia|].
      unfold r1, b1. rewrite !list_lookup_insert_ne by lia. done.
Qed.
End Beams.

Lemma n_beams_pos (self : Laser2D) :
  0 < FOV self -> 0 < resolution self -> (1 <= n_beams self)%Z.
Proof.
  intros HF Hr. unfold n_beams.
  assert (0 <= Zfloor (FOV self / resolution self))%Z; [|lia].
  apply Zfloor_lub. apply Rlt_le, Rdiv_lt_0_compat; done.
Qed.

Lemma valid_beam_count (self : Laser2D) :
  0 < FOV self -> 0 < resolution self -> beam_count_ok self.
Proof.
  intros HF Hr. split; [lra|]. pose proof (n_beams_pos self HF Hr). lia.
Qed.

(** What a call does, for a store whose beam count is defined. *)
Lemma take_observation_run (s : Store) :
  beam_count_ok (obj_self s) ->
  exists ranges bearings,
    take_observation s
      = (Ok [ranges; bearings],
         drawn s (2 * Z.to_nat (n_beams (obj_self s))))
    /\ length ranges = Z.to_nat (n_beams (obj_self s))
    /\ length bearings = Z.to_nat (n_beams (obj_self s))
    /\ forall i, (i < Z.to_nat (n_beams (obj_self s)))%nat ->
         ranges !! i = Some (noiseless_range (obj_self s) (obj_map s) i
                             + range_noise (obj_self s) (np_random s) i)
         /\ bearings !! i = Some (beam_bearing (obj_self s) i
                                  + bearing_noise (obj_self s) (np_random s) i).
Proof.
  intros [Hres Hn]. unfold take_observation, bind, load_self, load_map, lift.
  unfold py_truediv. rewrite (Reqb_neq _ _ Hres).
  fold (n_beams (obj_self s)). unfold np_zeros.
  destruct (Z.ltb_spec (n_beams (obj_self s)) 0) as [?|_]; [lia|].
  cbn [replicate]. unfold range.
  set (n := Z.to_nat (n_beams (obj_self s))).
  destruct (pfor_beams (obj_self s) (obj_map s) n 0 (replicate n 0)
              (replicate n 0) s) as (r' & b' & Hrun & Hlr & Hlb & Hin & _).
  { rewrite length_replicate. lia. }
  { done. }
  exists r', b'. rewrite Hrun. rewrite length_replicate in Hlr, Hlb.
  repeat split; try done.
  - destruct (Hin i) as [-> _]; [lia|]. unfold range_noise.
    by rewrite Nat.sub_0_r.
  - destruct (Hin i) as [_ ->]; [lia|]. unfold bearing_noise.
    by rewrite Nat.sub_0_r.
Qed.

(** The two ways a call can raise. *)
Lemma take_observation_zero_resolution (s : Store) :
  resolution (obj_self s) = 0 ->
  take_observation s = (Raise ZeroDivisionError, s).
Proof.
  intros H. unfold take_observation, bind, load_self, load_map, lift.
  unfold py_truediv. rewrite H, Reqb_refl. done.
Qed.

Lemma take_observation_negative_count (s : Store) :
  resolution (obj_self s) <> 0 -> (n_beams (obj_self s) < 0)%Z ->
  take_observation s = (Raise ValueError, s).
Proof.
  intros H Hn. unfold take_observation, bind, load_self, load_map, lift.
  unfold py_truediv. rewrite (Reqb_neq _ _ H).
  fold (n_beams (obj_self s)). unfold np_zeros.
  destruct (Z.ltb_spec (n_beams (obj_self s)) 0) as [_|?]; [done|lia].
Qed.

(** ** Facts about the scenarios *)

Lemma wall_sensor_valid :
  0 < FOV wall_sensor /\ 0 < resolution wall_sensor
  /\ 0 < max_distance wall_sensor.
Proof.
  pose proof PI_RGT_0. cbn [wall_sensor init FOV resolution max_distance].
  repeat split; lra.
Qed.

Lemma wall_sensor_n_beams : n_beams wall_sensor = 3%Z.
Proof.
  unfold n_beams. cbn [wall_sensor init FOV resolution].
  replace (PI / (PI / 2)) with (IZR 2).
  - rewrite ZfloorZ. done.
  - pose proof PI_RGT_0. field. lra.
Qed.

Lemma wall_sensor_beam_count g map :
  beam_count_ok (obj_self (mkStore wall_sensor map g)).
Proof.
  destruct wall_sensor_valid as (HF & Hr & _).
  by apply valid_beam_count.
Qed.

(** ** Shape of the observation *)



(** ** Bearings *)

(** C4.  Whatever pose the sensor is given, row 1 of the observation holds
    at index i the nominal body-frame angle i * resolution - FOV / 2 plus
    the bearing noise of that beam: no heading is added and no angle warp
    is applied.  With a zero bearing variance the entry is the nominal
    angle itself. *)
Theorem bearing_row_nominal (s : Store) (p : Pose) :
  beam_count_ok (obj_self s) ->
  exists z s' bearings,
    take_observation (snd (set_pose p s)) = (Ok z, s')
    /\ z !! 1%nat = Some bearings
    /\ length bearings = Z.to_nat (n_beams (obj_self s))
    /\ forall i, (i < Z.to_nat (n_beams (obj_self s)))%nat ->
         bearings !! i
           = Some (INR i * resolution (obj_self s) - FOV (obj_self s) / 2
                   + bearing_noise (obj_self s) (np_random s) i)
         /\ (cov_11 (noise_cov (obj_self s)) = 0 ->
             bearings !! i
               = Some (INR i * resolution (obj_self s)
                       - FOV (obj_self s) / 2)).
Proof.
  intros Hok.
  set (s1 := snd (set_pose p s)).
  assert (Hn : n_beams (obj_self s1) = n_beams (obj_self s)) by done.
  destruct (take_observation_run s1) as (ranges & bearings & Hrun & _ & Hlb & Hrows).
  { exact Hok. }
  exists [ranges; bearings], (drawn s1 (2 * Z.to_nat (n_beams (obj_self s1)))),
    bearings.
  split; [exact Hrun|]. split; [done|]. split; [by rewrite Hlb, Hn|].
  intros i Hi. destruct (Hrows i) as [_ Hb]; [by rewrite Hn|].
  rewrite Hb. split; [done|].
  intros Hcov. f_equal. unfold bearing_noise, beam_bearing.
  cbn [s1 set_pose bind load_self store_self snd obj_self noise_cov
       resolution FOV np_random].
  rewrite Hcov, sqrt_0. lra.
Qed.

Lemma bearing_row_nominal_witness :
  beam_count_ok wall_sensor /\
  exists z s' bearings,
    take_observation
      (snd (set_pose (mkPose 1 2 3) (mkStore wall_sensor wall_map counting_rng)))
      = (Ok z, s')
    /\ z !! 1%nat = Some bearings
    /\ bearings !! 2%nat = Some (INR 2 * (PI / 2) - PI / 2).
Proof.
  split; [exact (wall_sensor_beam_count counting_rng wall_map)|].
  destruct (bearing_row_nominal (mkStore wall_sensor wall_map counting_rng)
              (mkPose 1 2 3) (wall_sensor_beam_count counting_rng wall_map))
    as (z & s' & bearings & Hrun & Hrow & _ & Hall).
  exists z, s', bearings. split; [exact Hrun|]. split; [exact Hrow|].
  destruct (Hall 2%nat) as [_ H].
  - cbn [obj_self]. rewrite wall_sensor_n_beams. apply Nat.ltb_lt. reflexivity.
  - apply H. reflexivity.
Defined.

(** ** Maps without a segment *)

(** C8.  With fewer than 2 map points and a zero range variance, the loop
    over the lines has nothing to visit, the call returns, and every entry
    of row 0 is exactly [max_distance]. *)
Theorem short_map_max_distance (s : Store) :
  beam_count_ok (obj_self s) ->
  (length (obj_map s) < 2)%nat ->
  cov_00 (noise_cov (obj_self s)) = 0 ->
  range (Z.of_nat (length (obj_map s)) - 1) = []
  /\ exists z s' ranges,
       take_observation s = (Ok z, s')
       /\ z !! 0%nat = Some ranges
       /\ length ranges = Z.to_nat (n_beams (obj_self s))
       /\ Forall (fun r => r = max_distance (obj_self s)) ranges.
Proof.
  intros Hok Hlen Hcov.
  assert (Hnone : range (Z.of_nat (length (obj_map s)) - 1) = []).
  { unfold range. replace (Z.to_nat _) with 0%nat by lia. done. }
  split; [exact Hnone|].
  destruct (take_observation_run s Hok)
    as (ranges & bearings & Hrun & Hlr & _ & Hrows).
  exists [ranges; bearings], (drawn s (2 * Z.to_nat (n_beams (obj_self s)))),
    ranges.
  split; [exact Hrun|]. split; [done|]. split; [exact Hlr|].
  apply Forall_lookup. intros i r Hi.
  destruct (Hrows i) as [Hr _].
  { rewrite <- Hlr. by apply lookup_lt_Some in Hi. }
  rewrite Hr in Hi. injection Hi as <-.
  unfold noiseless_range, beam_range, range_noise.
  rewrite Hnone, Hcov, sqrt_0. cbn [rfor]. lra.
Qed.

Lemma short_map_max_distance_witness :
  beam_count_ok wall_sensor /\
  exists z s' ranges,
    take_observation (mkStore wall_sensor [(5, -5)] counting_rng) = (Ok z, s')
    /\ z !! 0%nat = Some ranges
    /\ length ranges = 3%nat
    /\ Forall (fun r => r = 10) ranges.
Proof.
  split; [exact (wall_sensor_beam_count counting_rng [(5, -5)])|].
  destruct (short_map_max_distance
              (mkStore wall_sensor [(5, -5)] counting_rng)
              (wall_sensor_beam_count counting_rng [(5, -5)]))
    as (_ & z & s' & ranges & Hrun & Hrow & Hlen & Hall).
  - cbn [obj_map length]. lia.
  - reflexivity.
  - exists z, s', ranges. split; [exact Hrun|]. split; [exact Hrow|].
    split; [|exact Hall].
    rewrite Hlen. cbn [obj_self]. rewrite wall_sensor_n_beams. reflexivity.
Defined.

(** ** What a call changes *)

Lemma take_observation_store (s : Store) :
  snd (take_observation s) = s
  \/ snd (take_observation s)
     = drawn s (2 * Z.to_nat (n_beams (obj_self s))).
Proof.
  destruct (Req_dec_T (resolution (obj_self s)) 0) as [H0|Hne].
  { left. by rewrite take_observation_zero_resolution. }
  destruct (Z.lt_ge_cases (n_beams (obj_self s)) 0) as [Hneg|Hpos].
  { left. by rewrite take_observation_negative_count. }
  right. destruct (take_observation_run s) as (r & b & -> & _); done.
Qed.

(** C9, as amended.  A call of [take_observation], returning or raising,
    leaves the map and the whole sensor object as they were: pose, FOV,
    resolution, max_distance, noise_cov and also [last_z], which keeps the
    value it had.  The only state that moves is the random generator,
    whose sample sequence is the same and whose cursor does not go
    back. *)
Theorem take_observation_frame (s : Store) :
  obj_map (snd (take_observation s)) = obj_map s
  /\ obj_self (snd (take_observation s)) = obj_self s
  /\ samples (np_random (snd (take_observation s))) = samples (np_random s)
  /\ (cursor (np_random s)
      <= cursor (np_random (snd (take_observation s))))%nat.
Proof.
  destruct (take_observation_store s) as [-> | ->].
  - repeat split; done.
  - unfold drawn. cbn [obj_map obj_self np_random samples cursor].
    repeat split; try done. lia.
Qed.

(** C9 as stated fails: on the wall scenario the call returns a table of
    two rows, and the cache [last_z] of the sensor is still the empty
    array of the constructor. *)
Lemma last_z_not_updated :
  exists z s',
    take_observation (mkStore wall_sensor wall_map counting_rng) = (Ok z, s')
    /\ last_z (obj_self s') = []
    /\ last_z (obj_self s') <> z.
Proof.
  destruct (take_observation_run (mkStore wall_sensor wall_map counting_rng)
              (wall_sensor_beam_count counting_rng wall_map))
    as (r & b & Hrun & _).
  exists [r; b], (drawn (mkStore wall_sensor wall_map counting_rng)
                   (2 * Z.to_nat (n_beams wall_sensor))).
  split; [exact Hrun|]. split; [reflexivity|]. discriminate.
Qed.

(** ** The guard of the division *)

Lemma scan_line_no_division_fault self map sd phi x_beam y_beam i_line d :
  scan_line self map sd phi x_beam y_beam i_line d <> Raise FloatingPointError.
Proof.
  unfold scan_line, intersection.
  destruct (getitem map i_line) as [p1|e1] eqn:E1;
    [|apply getitem_raise in E1 as ->; done].
  destruct (getitem map (i_line + 1)) as [p2|e2] eqn:E2;
    [|apply getitem_raise in E2 as ->; done].
  cbn [rbind]. fold (line_div self p1 p2 x_beam y_beam).
  destruct (Reqb (line_div self p1 p2 x_beam y_beam) 0) eqn:E; [done|].
  unfold np_divide. rewrite E. cbn [rbind].
  destruct (getitem sd i_line) as [len|e3] eqn:E3;
    [|apply getitem_raise in E3 as ->; done].
  cbn [rbind].
  repeat match goal with |- context [if ?b then _ else _] => destruct b end;
    done.
Qed.

Lemma take_observation_result (s : Store) :
  fst (take_observation s) = Raise ZeroDivisionError
  \/ fst (take_observation s) = Raise ValueError
  \/ exists z, fst (take_observation s) = Ok z.
Proof.
  destruct (Req_dec_T (resolution (obj_self s)) 0) as [H0|Hne].
  { left. by rewrite take_observation_zero_resolution. }
  destruct (Z.lt_ge_cases (n_beams (obj_self s)) 0) as [Hneg|Hpos].
  { right. left. by rewrite take_observation_negative_count. }
  right. right.
  destruct (take_observation_run s) as (r & b & -> & _); [done|].
  by exists [r; b].
Qed.

Lemma zero_length_div self (p : Point) x_beam y_beam :
  line_div self p p x_beam y_beam = 0.
Proof. unfold line_div, det. cbn [fst snd]. lra. Qed.

(** C7.  In the loop over the lines the two quotients by [div] are formed
    only when [div] is not 0: no turn of the loop, and no call, ends in a
    division fault; a point is produced only from a nonzero [div], and it
    is the quotient point.  When [div] is 0 the segment is skipped and the
    candidate distance stays as it was; a zero-length segment always has
    [div] equal to 0. *)
Theorem division_guarded (s : Store) (x_beam y_beam : R) (i_line : nat) :
  let self := obj_self s in
  let map := obj_map s in
  (forall sd phi d,
      scan_line self map sd phi x_beam y_beam i_line d
      <> Raise FloatingPointError)
  /\ fst (take_observation s) <> Raise FloatingPointError
  /\ (forall x y,
        intersection self map x_beam y_beam i_line = Ok (Some (x, y)) ->
        exists p1 p2,
          map !! i_line = Some p1 /\ map !! (i_line + 1)%nat = Some p2
          /\ line_div self p1 p2 x_beam y_beam <> 0
          /\ (x, y) = cross_point self p1 p2 x_beam y_beam)
  /\ (forall p1 p2,
        map !! i_line = Some p1 -> map !! (i_line + 1)%nat = Some p2 ->
        line_div self p1 p2 x_beam y_beam = 0 ->
        intersection self map x_beam y_beam i_line = Ok None
        /\ forall sd phi d,
             scan_line self map sd phi x_beam y_beam i_line d = Ok d)
  /\ (forall p,
        map !! i_line = Some p -> map !! (i_line + 1)%nat = Some p ->
        intersection self map x_beam y_beam i_line = Ok None).
Proof.
  intros self map. split; [|split; [|split; [|split]]].
  - intros sd phi d. apply scan_line_no_division_fault.
  - destruct (take_observation_result s) as [-> | [-> | [z ->]]]; done.
  - intros x y Hint.
    destruct (map !! i_line) as [p1|] eqn:H1;
      [|unfold intersection, getitem in Hint; by rewrite H1 in Hint].
    destruct (map !! (i_line + 1)%nat) as [p2|] eqn:H2;
      [|unfold intersection, getitem in Hint; by rewrite H1, H2 in Hint].
    rewrite (intersection_eq self map _ _ _ _ _ H1 H2) in Hint.
    exists p1, p2. split; [done|]. split; [done|].
    destruct (Reqb (line_div self p1 p2 x_beam y_beam) 0) eqn:E;
      [done|].
    apply Reqb_false in E. split; [done|]. by inversion Hint.
  - intros p1 p2 H1 H2 Hdiv.
    assert (Hnone : intersection self map x_beam y_beam i_line = Ok None).
    { rewrite (intersection_eq self map _ _ _ _ _ H1 H2).
      by rewrite Hdiv, Reqb_refl. }
    split; [exact Hnone|]. intros sd phi d.
    unfold scan_line. by rewrite Hnone.
  - intros p H1 H2.
    rewrite (intersection_eq self map _ _ _ _ _ H1 H2).
    by rewrite zero_length_div, Reqb_refl.
Qed.

Lemma division_guarded_witness :
  line_div wall_sensor (5, -5) (5, 5) 0 (-10) = 0
  /\ intersection wall_sensor wall_map 0 (-10) 0 = Ok None
  /\ scan_line wall_sensor wall_map (seg_lengths wall_map)
       (- (PI / 2)) 0 (-10) 0 10 = Ok 10.
Proof.
  assert (Hdiv : line_div wall_sensor (5, -5) (5, 5) 0 (-10) = 0).
  { unfold line_div, det.
    cbn [fst snd wall_sensor init pose pose_x pose_y]. lra. }
  split; [exact Hdiv|].
  destruct (division_guarded (mkStore wall_sensor wall_map counting_rng)
              0 (-10) 0) as (_ & _ & _ & Hskip & _).
  destruct (Hskip (5, -5) (5, 5) eq_refl eq_refl Hdiv) as [Hnone Hsame].
  split; [exact Hnone|apply Hsame].
Defined.

(** ** The closest hit *)

Section Closest.
Variables (self : Laser2D) (map : Map) (i_beam : nat).

Local Abbreviation x_beam := (fst (beam_end self i_beam)).
Local Abbreviation y_beam := (snd (beam_end self i_beam)).

(** The three tests of lines 74, 89-90 and 100, on segment [p1 p2]. *)
Lemma valid_hit_iff i_line dist p1 p2 len :
  map !! i_line = Some p1 -> map !! (i_line + 1)%nat = Some p2 ->
  seg_lengths map !! i_line = Some len ->
  let c := cross_point self p1 p2 x_beam y_beam in
  valid_hit self map i_beam i_line dist <->
    Reqb (line_div self p1 p2 x_beam y_beam) 0 = false
    /\ Rltb (sqrt ((fst p1 - fst c) ^ 2 + (snd p1 - snd c) ^ 2))
            (len + 5 / 100)
       && Rltb (sqrt ((fst p2 - fst c) ^ 2 + (snd p2 - snd c) ^ 2))
               (len + 5 / 100) = true
    /\ Reqb (np_sign (beam_phi self i_beam))
            (np_sign (hit_phi self (fst c) (snd c))) = true
    /\ dist = dist_to self (fst c) (snd c).
Proof.
  intros H1 H2 H3 c. unfold valid_hit.
  rewrite (intersection_eq self map _ _ _ _ _ H1 H2). fold c.
  split.
  - intros (x & y & Hint & Hseg & Hside & ->).
    destruct (Reqb (line_div self p1 p2 x_beam y_beam) 0); [done|].
    assert (Hc : c = (x, y)) by congruence.
    assert (Hx : x = fst c) by (by rewrite Hc).
    assert (Hy : y = snd c) by (by rewrite Hc).
    clear Hint Hc. subst x y.
    destruct Hseg as (q1 & q2 & l & Hq1 & Hq2 & Hl & Hd1 & Hd2).
    rewrite H1 in Hq1. rewrite H2 in Hq2. rewrite H3 in Hl.
    injection Hq1 as <-. injection Hq2 as <-. injection Hl as <-.
    split; [done|]. split.
    + apply andb_true_iff. split; by apply Rltb_true.
    + split; [by apply Reqb_true|done].
  - intros (Hdiv & Hseg & Hside & ->). rewrite Hdiv.
    exists (fst c), (snd c). split; [by destruct c|].
    apply andb_true_iff in Hseg as [Hd1 Hd2].
    split; [|split; [by apply Reqb_true|done]].
    exists p1, p2, len. repeat split; try done; by apply Rltb_true.
Qed.

Lemma valid_hit_lt i_line dist :
  valid_hit self map i_beam i_line dist ->
  (i_line < Z.to_nat (Z.of_nat (length map) - 1))%nat.
Proof.
  intros (x & y & _ & (p1 & p2 & len & _ & H2 & _) & _).
  apply lookup_lt_Some in H2. lia.
Qed.

Lemma valid_hit_nonneg i_line dist :
  valid_hit self map i_beam i_line dist -> 0 <= dist.
Proof. intros (x & y & _ & _ & _ & ->). apply sqrt_pos. Qed.

Lemma scan_line_closest k d :
  (k < Z.to_nat (Z.of_nat (length map) - 1))%nat ->
  closest_upto self map i_beam k d ->
  exists d',
    scan_line self map (seg_lengths map) (beam_phi self i_beam)
      x_beam y_beam k d = Ok d'
    /\ closest_upto self map i_beam (S k) d'.
Proof.
  intros Hk (Hin & Hmax & Hleast).
  destruct (segment_lookup map k Hk) as (p1 & p2 & len & H1 & H2 & H3).
  rewrite (scan_line_eq self map _ _ _ _ _ _ _ _ H1 H2 H3).
  eexists. split; [reflexivity|].
  pose proof (fun dist => valid_hit_iff k dist p1 p2 len H1 H2 H3) as Hiff.
  cbv zeta in Hiff |- *.
  set (c := cross_point self p1 p2 x_beam y_beam) in *.
  assert (Hkeep : (forall dist, ~ valid_hit self map i_beam k dist) ->
                  closest_upto self map i_beam (S k) d).
  { intros Hno. split; [|split; [done|]].
    - destruct Hin as [->|(i & Hi & Hv)]; [by left|].
      right. exists i. split; [lia|done].
    - intros i dist Hi Hv. destruct (decide (i = k)) as [->|Hne].
      + by destruct (Hno dist).
      + apply (Hleast i); [lia|done]. }
  destruct (Reqb (line_div self p1 p2 x_beam y_beam) 0) eqn:Ediv.
  { apply Hkeep. intros dist Hv. apply Hiff in Hv as (Hf & _). done. }
  destruct (_ && _) eqn:Eseg.
  2:{ apply Hkeep. intros dist Hv. apply Hiff in Hv as (_ & Hf & _). done. }
  destruct (Reqb (np_sign _) _) eqn:Eside.
  2:{ apply Hkeep. intros dist Hv.
      apply Hiff in Hv as (_ & _ & Hf & _). done. }
  assert (Hhit : valid_hit self map i_beam k (dist_to self (fst c) (snd c))).
  { apply Hiff. done. }
  destruct (Rltb (dist_to self (fst c) (snd c)) d) eqn:Elt.
  - apply Rltb_true in Elt. split; [|split].
    + right. exists k. split; [lia|done].
    + lra.
    + intros i dist Hi Hv. destruct (decide (i = k)) as [->|Hne].
      * apply Hiff in Hv as (_ & _ & _ & ->). lra.
      * pose proof (Hleast i dist ltac:(lia) Hv). lra.
  - apply Rltb_false in Elt. split; [|split; [done|]].
    + destruct Hin as [->|(i & Hi & Hv)]; [by left|].
      right. exists i. split; [lia|done].
    + intros i dist Hi Hv. destruct (decide (i = k)) as [->|Hne].
      * apply Hiff in Hv as (_ & _ & _ & ->). lra.
      * apply (Hleast i); [lia|done].
Qed.

Lemma beam_range_closest :
  closest_hit self map i_beam (noiseless_range self map i_beam).
Proof.
  destruct (rfor_seq_inv (closest_upto self map i_beam)
              (scan_line self map (seg_lengths map) (beam_phi self i_beam)
                 x_beam y_beam)
              (Z.to_nat (Z.of_nat (length map) - 1)) (max_distance self))
    as (d & Hrun & Hin & Hmax & Hleast).
  - split; [by left|]. split; [lra|]. intros i dist Hi. lia.
  - intros k s Hk HP. by apply scan_line_closest.
  - unfold noiseless_range, beam_range, range.
    change (pose_x (pose self)
            + max_distance self * cos (beam_phi self i_beam)) with x_beam.
    change (pose_y (pose self)
            + max_distance self * sin (beam_phi self i_beam)) with y_beam.
    rewrite Hrun. split; [|split; [done|]].
    + destruct Hin as [->|(i & _ & Hv)]; [by left|]. right. by exists i.
    + intros i dist Hv. apply (Hleast i); [|done].
      by apply valid_hit_lt in Hv.
Qed.

(** Only one number is the closest hit. *)
Lemma closest_hit_unique d d' :
  closest_hit self map i_beam d -> closest_hit self map i_beam d' -> d = d'.
Proof.
  intros (Hin & Hmax & Hleast) (Hin' & Hmax' & Hleast').
  assert (d <= d').
  { destruct Hin' as [->|(i & Hv)]; [done|]. by apply (Hleast i). }
  assert (d' <= d).
  { destruct Hin as [->|(i & Hv)]; [done|]. by apply (Hleast' i). }
  lra.
Qed.
End Closest.

(** C1.  For every sensor, map and beam, the range held in row 0 is the
    closest hit of the beam plus its range noise, the closest hit being the
    one number that is [max_distance] or the distance to an intersection
    passing the segment and direction checks, and that is no larger than
    [max_distance] nor than any such distance.  With a zero range variance
    the entry is the closest hit itself. *)
Theorem closest_hit_wins (s : Store) :
  beam_count_ok (obj_self s) ->
  exists z s' ranges,
    take_observation s = (Ok z, s')
    /\ z !! 0%nat = Some ranges
    /\ length ranges = Z.to_nat (n_beams (obj_self s))
    /\ forall i, (i < Z.to_nat (n_beams (obj_self s)))%nat ->
         exists d,
           beam_range (obj_self s) (obj_map s) (seg_lengths (obj_map s)) i
             = Ok d
           /\ closest_hit (obj_self s) (obj_map s) i d
           /\ (forall d', closest_hit (obj_self s) (obj_map s) i d' -> d' = d)
           /\ ranges !! i
                = Some (d + range_noise (obj_self s) (np_random s) i)
           /\ (cov_00 (noise_cov (obj_self s)) = 0 -> ranges !! i = Some d).
Proof.
  intros Hok.
  destruct (take_observation_run s Hok)
    as (ranges & bearings & Hrun & Hlr & _ & Hrows).
  exists [ranges; bearings], (drawn s (2 * Z.to_nat (n_beams (obj_self s)))),
    ranges.
  split; [exact Hrun|]. split; [done|]. split; [exact Hlr|].
  intros i Hi. destruct (Hrows i Hi) as [Hr _].
  exists (noiseless_range (obj_self s) (obj_map s) i).
  pose proof (beam_range_closest (obj_self s) (obj_map s) i) as Hc.
  split; [apply beam_range_noiseless|]. split; [exact Hc|].
  split; [|split; [exact Hr|]].
  - intros d' Hd'. by apply (closest_hit_unique _ _ _ _ _ Hd' Hc).
  - intros Hcov. rewrite Hr. f_equal. unfold range_noise.
    rewrite Hcov, sqrt_0. lra.
Qed.

Lemma closest_hit_wins_witness :
  beam_count_ok wall_sensor /\
  exists z s' ranges d,
    take_observation (mkStore wall_sensor wall_map counting_rng) = (Ok z, s')
    /\ z !! 0%nat = Some ranges
    /\ closest_hit wall_sensor wall_map 1 d
    /\ ranges !! 1%nat = Some d.
Proof.
  split; [exact (wall_sensor_beam_count counting_rng wall_map)|].
  destruct (closest_hit_wins (mkStore wall_sensor wall_map counting_rng)
              (wall_sensor_beam_count counting_rng wall_map))
    as (z & s' & ranges & Hrun & Hrow & _ & Hall).
  destruct (Hall 1%nat) as (d & _ & Hd & _ & _ & Hzero).
  - cbn [obj_self]. rewrite wall_sensor_n_beams. apply Nat.ltb_lt. reflexivity.
  - exists z, s', ranges, d. split; [exact Hrun|]. split; [exact Hrow|].
    split; [exact Hd|]. apply Hzero. reflexivity.
Defined.

(** C10.  With a nonnegative [max_distance] and a zero range variance,
    every entry of row 0 lies between 0 and [max_distance]. *)
Theorem ranges_bounded (s : Store) :
  beam_count_ok (obj_self s) ->
  0 <= max_distance (obj_self s) ->
  cov_00 (noise_cov (obj_self s)) = 0 ->
  exists z s' ranges,
    take_observation s = (Ok z, s')
    /\ z !! 0%nat = Some ranges
    /\ length ranges = Z.to_nat (n_beams (obj_self s))
    /\ Forall (fun r => 0 <= r <= max_distance (obj_self s)) ranges.
Proof.
  intros Hok Hmax Hcov.
  destruct (take_observation_run s Hok)
    as (ranges & bearings & Hrun & Hlr & _ & Hrows).
  exists [ranges; bearings], (drawn s (2 * Z.to_nat (n_beams (obj_self s)))),
    ranges.
  split; [exact Hrun|]. split; [done|]. split; [exact Hlr|].
  apply Forall_lookup. intros i r Hi.
  destruct (Hrows i) as [Hr _].
  { rewrite <- Hlr. by apply lookup_lt_Some in Hi. }
  rewrite Hr in Hi. injection Hi as <-.
  unfold range_noise. rewrite Hcov, sqrt_0.
  destruct (beam_range_closest (obj_self s) (obj_map s) i)
    as (Hin & Hle & _).
  destruct Hin as [Heq|(k & Hv)].
  - rewrite Heq. lra.
  - apply valid_hit_nonneg in Hv. lra.
Qed.

Lemma ranges_bounded_witness :
  beam_count_ok wall_sensor /\ 0 <= max_distance wall_sensor /\
  exists z s' ranges,
    take_observation (mkStore wall_sensor wall_map counting_rng) = (Ok z, s')
    /\ z !! 0%nat = Some ranges
    /\ Forall (fun r => 0 <= r <= 10) ranges.
Proof.
  assert (Hmax : 0 <= max_distance wall_sensor).
  { cbn [wall_sensor init max_distance]. lra. }
  split; [exact (wall_sensor_beam_count counting_rng wall_map)|].
  split; [exact Hmax|].
  destruct (ranges_bounded (mkStore wall_sensor wall_map counting_rng)
              (wall_sensor_beam_count counting_rng wall_map) Hmax eq_refl)
    as (z & s' & ranges & Hrun & Hrow & _ & Hall).
  exists z, s', ranges. split; [exact Hrun|]. split; [exact Hrow|exact Hall].
Defined.

(** ** Angles *)

(** Case analysis on the comparisons of a goal, turning each into the
    inequality it decides. *)
Ltac split_cmp :=
  repeat match goal with
    | |- context [Rltb ?a ?b] =>
        let E := fresh "E" in
        destruct (Rltb a b) eqn:E;
        [apply Rltb_true in E | apply Rltb_false in E]
    | |- context [Reqb ?a ?b] =>
        let E := fresh "E" in
        destruct (Reqb a b) eqn:E;
        [apply Reqb_true in E | apply Reqb_false in E]
    end.

(** ** Small checks of the helpers *)

Example det_example : det (1, 2) (3, 4) = -2.
Proof. unfold det. cbn [fst snd]. lra. Qed.

Example np_sign_examples :
  np_sign (-3) = -1 /\ np_sign 0 = 0 /\ np_sign 7 = 1.
Proof. unfold np_sign, Rgtb. repeat split; split_cmp; lra. Qed.

Example angle_warp_examples :
  angle_warp (3 * PI / 2) = - (PI / 2) /\ angle_warp (- PI) = - PI
  /\ angle_warp PI = PI.
Proof.
  pose proof PI_RGT_0. unfold angle_warp, Rgtb.
  repeat split; split_cmp; lra.
Qed.

Example atan2_examples :
  atan2 1 0 = PI / 2 /\ atan2 0 (-1) = PI /\ atan2 (-5) 0 = - (PI / 2)
  /\ atan2 0 0 = 0.
Proof.
  pose proof PI_RGT_0. unfold atan2, Rgtb.
  repeat split; split_cmp; try lra.
  rewrite Rdiv_0_l, atan_0. lra.
Qed.

Example range_examples : range 3 = [0; 1; 2]%nat /\ range (-1) = [].
Proof. done. Qed.

Example setitem_examples :
  setitem [[0; 0]; [0; 0]] 1 0 7 = Ok [[0; 0]; [7; 0]]
  /\ setitem [[0; 0]; [0; 0]] 1 2 7 = Raise IndexError.
Proof. done. Qed.

Lemma angle_warp_cases phi :
  (PI < phi /\ angle_warp phi = phi - 2 * PI)
  \/ (phi < - PI /\ angle_warp phi = phi + 2 * PI)
  \/ (- PI <= phi <= PI /\ angle_warp phi = phi).
Proof.
  pose proof PI_RGT_0. unfold angle_warp, Rgtb. split_cmp.
  - left. done.
  - right. left. done.
  - right. right. split; [lra|done].
Qed.

Lemma np_sign_zero x : np_sign x = 0 <-> x = 0.
Proof. unfold np_sign, Rgtb. split_cmp; split; intros; lra. Qed.

Lemma atan2_range y x : - PI < atan2 y x <= PI.
Proof.
  pose proof PI_RGT_0. pose proof (atan_bound (y / x)) as Hb.
  unfold atan2, Rgtb. split_cmp; try lra.
  - assert (0 < y / x) by (by apply Rdiv_neg_neg).
    pose proof (atan_increasing _ _ H0) as Hi. rewrite atan_0 in Hi. lra.
  - assert (y / x <= 0).
    { destruct (Req_dec_T y 0) as [->|Hy]; [rewrite Rdiv_0_l; lra|].
      apply Rlt_le, Rdiv_pos_neg; lra. }
    assert (atan (y / x) <= 0).
    { destruct H0 as [Hlt| ->]; [|rewrite atan_0; lra].
      pose proof (atan_increasing _ _ Hlt) as Hi. rewrite atan_0 in Hi. lra. }
    lra.
Qed.

Lemma hit_phi_range self x y : - PI < hit_phi self x y <= PI.
Proof.
  pose proof PI_RGT_0. unfold hit_phi.
  pose proof (atan2_range (0 - (x - pose_x (pose self)))
                (y - pose_y (pose self) - 0)) as Ha.
  destruct (angle_warp_cases
              (atan2 (0 - (x - pose_x (pose self)))
                 (y - pose_y (pose self) - 0) + 90 * PI / 180))
    as [[Hc ->] | [[Hc ->] | [Hc ->]]]; lra.
Qed.

Lemma atan2_pos_x y x : 0 < x -> atan2 y x = atan (y / x).
Proof. intros. unfold atan2, Rgtb. split_cmp; lra. Qed.

Lemma atan2_neg_x y x :
  x < 0 -> atan2 y x = if Rltb y 0 then atan (y / x) - PI else atan (y / x) + PI.
Proof. intros. unfold atan2, Rgtb. split_cmp; lra. Qed.

Lemma atan2_zero_x y :
  atan2 y 0 = if Rltb 0 y then PI / 2 else if Rltb y 0 then - (PI / 2) else 0.
Proof. unfold atan2, Rgtb. split_cmp; lra. Qed.

Lemma atan_quarter_same a b :
  0 < a * b -> atan (- (a / b)) = atan (b / a) - PI / 2.
Proof.
  intros Hab.
  assert (a <> 0) by nra. assert (b <> 0) by nra.
  assert (Hq : 0 < a / b).
  { replace (a / b) with (a * b * (/ b * / b)) by (field; done).
    apply Rmult_lt_0_compat; [done|].
    assert (/ b <> 0) by (by apply Rinv_neq_0_compat). nra. }
  rewrite atan_opp. replace (b / a) with (/ (a / b)) by (field; done).
  rewrite atan_inv by done. lra.
Qed.

Lemma atan_quarter_opposite a b :
  a * b < 0 -> atan (- (a / b)) = atan (b / a) + PI / 2.
Proof.
  intros Hab.
  assert (a <> 0) by nra. assert (b <> 0) by nra.
  pose proof (atan_quarter_same (- a) b ltac:(nra)) as H1.
  replace (- (- a / b)) with (a / b) in H1 by (field; done).
  replace (b / - a) with (- (b / a)) in H1 by (field; done).
  rewrite !atan_opp in *. lra.
Qed.

(** Away from the sensor position, the angle of lines 94-98 is the bearing
    of the point (x, y) seen from the sensor. *)
Lemma hit_phi_bearing self x y :
  (x, y) <> (pose_x (pose self), pose_y (pose self)) ->
  hit_phi self x y = atan2 (y - pose_y (pose self)) (x - pose_x (pose self)).
Proof.
  intros Hne. pose proof PI_RGT_0 as Hpi. unfold hit_phi.
  set (dx := x - pose_x (pose self)). set (dy := y - pose_y (pose self)).
  assert (Hd : dx <> 0 \/ dy <> 0).
  { destruct (Req_dec_T dx 0) as [H0|]; [|by left].
    destruct (Req_dec_T dy 0) as [H1|]; [|by right].
    destruct Hne. unfold dx, dy in *. f_equal; lra. }
  replace (0 - dx) with (- dx) by lra. replace (dy - 0) with dy by lra.
  pose proof (atan_bound (dy / dx)) as Hb.
  destruct (Rtotal_order dy 0) as [Hy | [Hy | Hy]];
    destruct (Rtotal_order dx 0) as [Hx | [Hx | Hx]].
  - (* dy < 0, dx < 0 *)
    rewrite (atan2_neg_x (- dx) dy Hy), (atan2_neg_x dy dx Hx).
    rewrite (Rltb_ge (- dx) 0) by lra. rewrite (Rltb_lt dy 0) by lra.
    replace (- dx / dy) with (- (dx / dy)) by (field; lra).
    rewrite atan_quarter_same by nra.
    assert (0 < dy / dx) by (by apply Rdiv_neg_neg).
    pose proof (atan_increasing _ _ H) as Hi. rewrite atan_0 in Hi.
    destruct (angle_warp_cases (atan (dy / dx) - PI / 2 + PI + 90 * PI / 180))
      as [[Hc ->] | [[Hc ->] | [Hc ->]]]; lra.
  - (* dy < 0, dx = 0 *)
    rewrite (atan2_neg_x (- dx) dy Hy). rewrite Hx, atan2_zero_x.
    rewrite (Rltb_ge (- 0) 0) by lra. rewrite (Rltb_ge 0 dy) by lra.
    rewrite (Rltb_lt dy 0) by lra.
    replace (- 0 / dy) with 0 by (field; lra). rewrite atan_0.
    destruct (angle_warp_cases (0 + PI + 90 * PI / 180))
      as [[Hc ->] | [[Hc ->] | [Hc ->]]]; lra.
  - (* dy < 0, 0 < dx *)
    rewrite (atan2_neg_x (- dx) dy Hy), (atan2_pos_x dy dx Hx).
    rewrite (Rltb_lt (- dx) 0) by lra.
    replace (- dx / dy) with (- (dx / dy)) by (field; lra).
    rewrite atan_quarter_opposite by nra.
    destruct (angle_warp_cases (atan (dy / dx) + PI / 2 - PI + 90 * PI / 180))
      as [[Hc ->] | [[Hc ->] | [Hc ->]]]; lra.
  - (* dy = 0, dx < 0 *)
    rewrite Hy, atan2_zero_x, (atan2_neg_x 0 dx Hx).
    rewrite (Rltb_lt 0 (- dx)) by lra. rewrite (Rltb_ge 0 0) by lra.
    rewrite Rdiv_0_l, atan_0.
    destruct (angle_warp_cases (PI / 2 + 90 * PI / 180))
      as [[Hc ->] | [[Hc ->] | [Hc ->]]]; lra.
  - lra.
  - (* dy = 0, 0 < dx *)
    rewrite Hy, atan2_zero_x, (atan2_pos_x 0 dx Hx).
    rewrite (Rltb_ge 0 (- dx)) by lra. rewrite (Rltb_lt (- dx) 0) by lra.
    rewrite Rdiv_0_l, atan_0.
    destruct (angle_warp_cases (- (PI / 2) + 90 * PI / 180))
      as [[Hc ->] | [[Hc ->] | [Hc ->]]]; lra.
  - (* 0 < dy, dx < 0 *)
    rewrite (atan2_pos_x (- dx) dy Hy), (atan2_neg_x dy dx Hx).
    rewrite (Rltb_ge dy 0) by lra.
    replace (- dx / dy) with (- (dx / dy)) by (field; lra).
    rewrite atan_quarter_opposite by nra.
    assert (dy / dx < 0) by (by apply Rdiv_pos_neg).
    pose proof (atan_increasing _ _ H) as Hi. rewrite atan_0 in Hi.
    destruct (angle_warp_cases (atan (dy / dx) + PI / 2 + 90 * PI / 180))
      as [[Hc ->] | [[Hc ->] | [Hc ->]]]; lra.
  - (* 0 < dy, dx = 0 *)
    rewrite (atan2_pos_x (- dx) dy Hy). rewrite Hx, atan2_zero_x.
    rewrite (Rltb_lt 0 dy) by lra.
    replace (- 0 / dy) with 0 by (field; lra). rewrite atan_0.
    destruct (angle_warp_cases (0 + 90 * PI / 180))
      as [[Hc ->] | [[Hc ->] | [Hc ->]]]; lra.
  - (* 0 < dy, 0 < dx *)
    rewrite (atan2_pos_x (- dx) dy Hy), (atan2_pos_x dy dx Hx).
    replace (- dx / dy) with (- (dx / dy)) by (field; lra).
    rewrite atan_quarter_same by nra.
    destruct (angle_warp_cases (atan (dy / dx) - PI / 2 + 90 * PI / 180))
      as [[Hc ->] | [[Hc ->] | [Hc ->]]]; lra.
Qed.

(** C5, as amended.  When the sum i * resolution - FOV / 2 + theta lies in
    (-3 PI, 3 PI], the warped beam angle is that sum shifted by -2 PI, 0
    or 2 PI, and lies in the closed interval [-PI, PI]; it is above -PI
    whenever the sum is not -PI itself. *)
Theorem beam_phi_range (self : Laser2D) (i_beam : nat) :
  let sum := INR i_beam * resolution self - FOV self / 2
             + pose_theta (pose self) in
  - 3 * PI < sum <= 3 * PI ->
  (beam_phi self i_beam = sum - 2 * PI \/ beam_phi self i_beam = sum
   \/ beam_phi self i_beam = sum + 2 * PI)
  /\ - PI <= beam_phi self i_beam <= PI
  /\ (sum <> - PI -> - PI < beam_phi self i_beam).
Proof.
  intros sum Hsum. pose proof PI_RGT_0. unfold beam_phi. fold sum.
  destruct (angle_warp_cases sum) as [[Hc ->] | [[Hc ->] | [Hc ->]]].
  - split; [by left|]. split; [lra|]. intros _. lra.
  - split; [by right; right|]. split; [lra|]. intros _. lra.
  - split; [by right; left|]. split; [lra|]. intros Hne.
    destruct Hc as [[Hlt|Heq] _]; [lra|]. by destruct Hne.
Qed.

Lemma beam_phi_range_witness :
  - 3 * PI < INR 2 * resolution wall_sensor - FOV wall_sensor / 2
             + pose_theta (pose wall_sensor) <= 3 * PI
  /\ - PI <= beam_phi wall_sensor 2 <= PI.
Proof.
  assert (Hsum : - 3 * PI < INR 2 * resolution wall_sensor
                            - FOV wall_sensor / 2
                            + pose_theta (pose wall_sensor) <= 3 * PI).
  { pose proof PI_RGT_0.
    cbn [wall_sensor init resolution FOV pose pose_theta INR]. lra. }
  split; [exact Hsum|].
  destruct (beam_phi_range wall_sensor 2 Hsum) as (_ & Hrange & _).
  exact Hrange.
Defined.

(** C5 as stated fails: the first beam of a sensor with FOV = 2 PI and
    heading 0 has the sum -PI, which is in (-3 PI, 3 PI]; neither branch
    of the warp fires and the angle stays at -PI, outside (-PI, PI]. *)
Lemma beam_phi_minus_pi :
  (- 3 * PI < INR 0 * resolution full_turn_sensor - FOV full_turn_sensor / 2
              + pose_theta (pose full_turn_sensor) <= 3 * PI)
  /\ beam_phi full_turn_sensor 0 = - PI
  /\ ~ (- PI < beam_phi full_turn_sensor 0 <= PI).
Proof.
  pose proof PI_RGT_0.
  assert (Hphi : beam_phi full_turn_sensor 0 = - PI).
  { unfold beam_phi.
    cbn [full_turn_sensor init resolution FOV pose pose_theta INR].
    destruct (angle_warp_cases (0 * 1 - 2 * PI / 2 + 0))
      as [[Hc ->] | [[Hc ->] | [Hc ->]]]; lra. }
  split.
  - cbn [full_turn_sensor init resolution FOV pose pose_theta INR]. lra.
  - split; [exact Hphi|]. rewrite Hphi. lra.
Qed.

(** ** The direction filter *)

(** C6.  For an intersection point that passes the segment check, the
    angle [phi_m] compared with the beam angle lies in (-PI, PI]; the turn
    of the loop lets the point compete for the closest hit exactly when
    the signs of [phi] and [phi_m] are equal, and leaves the candidate as
    it was otherwise; for [phi] equal to 0 the signs are equal exactly when
    [phi_m] is 0.  Unless the point is the sensor position itself, [phi_m]
    is the bearing atan2 (y - pose_y) (x - pose_x) of the point. *)
Theorem direction_filter (self : Laser2D) (map : Map)
    (phi x_beam y_beam : R) (i_line : nat) (d x y : R) :
  intersection self map x_beam y_beam i_line = Ok (Some (x, y)) ->
  on_segment map i_line x y ->
  let phi_m := hit_phi self x y in
  let run := scan_line self map (seg_lengths map) phi x_beam y_beam i_line d in
  - PI < phi_m <= PI
  /\ (np_sign phi = np_sign phi_m ->
      run = Ok (if Rltb (dist_to self x y) d then dist_to self x y else d))
  /\ (np_sign phi <> np_sign phi_m -> run = Ok d)
  /\ (dist_to self x y < d ->
      (run = Ok (dist_to self x y) <-> np_sign phi = np_sign phi_m))
  /\ (phi = 0 -> (np_sign phi = np_sign phi_m <-> phi_m = 0))
  /\ ((x, y) <> (pose_x (pose self), pose_y (pose self)) ->
      phi_m = atan2 (y - pose_y (pose self)) (x - pose_x (pose self))).
Proof.
  intros Hint (p1 & p2 & len & H1 & H2 & H3 & Hd1 & Hd2) phi_m run.
  assert (Hrun : run = Ok (if Reqb (np_sign phi) (np_sign phi_m)
                           then if Rltb (dist_to self x y) d
                                then dist_to self x y else d
                           else d)).
  { unfold run. rewrite (scan_line_eq self map _ _ _ _ _ _ _ _ H1 H2 H3).
    rewrite (intersection_eq self map _ _ _ _ _ H1 H2) in Hint.
    destruct (Reqb (line_div self p1 p2 x_beam y_beam) 0); [done|].
    assert (Hc : cross_point self p1 p2 x_beam y_beam = (x, y))
      by congruence.
    cbv zeta. rewrite Hc. cbn [fst snd].
    rewrite (Rltb_lt _ _ Hd1), (Rltb_lt _ _ Hd2). done. }
  split; [apply hit_phi_range|]. split; [|split; [|split; [|split]]].
  - intros Heq. rewrite Hrun. by rewrite Heq, Reqb_refl.
  - intros Hne. rewrite Hrun. by rewrite (Reqb_neq _ _ Hne).
  - intros Hlt. rewrite Hrun, (Rltb_lt _ _ Hlt).
    destruct (Reqb (np_sign phi) (np_sign phi_m)) eqn:E.
    + apply Reqb_true in E. done.
    + apply Reqb_false in E. split; [|done].
      intros Heq. injection Heq as Heq. lra.
  - intros ->. replace (np_sign 0) with 0 by (symmetry; by apply np_sign_zero).
    split.
    + intros Heq. by apply np_sign_zero.
    + intros Heq. symmetry. by apply np_sign_zero.
  - apply hit_phi_bearing.
Qed.

(** ** The wall scenario *)

Lemma sqrt_of_square x v : 0 <= v -> x = v * v -> sqrt x = v.
Proof. intros Hv ->. by apply sqrt_square. Qed.

Lemma wall_seg_lengths : seg_lengths wall_map = [10].
Proof.
  unfold seg_lengths, wall_map. cbn [removelast tail zip_with fst snd].
  f_equal. apply sqrt_of_square; lra.
Qed.

Lemma wall_beam_phi :
  beam_phi wall_sensor 0 = - (PI / 2)
  /\ beam_phi wall_sensor 1 = 0
  /\ beam_phi wall_sensor 2 = PI / 2.
Proof.
  pose proof PI_RGT_0. unfold beam_phi.
  cbn [wall_sensor init resolution FOV pose pose_theta INR].
  repeat split.
  - destruct (angle_warp_cases (0 * (PI / 2) - PI / 2 + 0))
      as [[Hc ->] | [[Hc ->] | [Hc ->]]]; lra.
  - destruct (angle_warp_cases (1 * (PI / 2) - PI / 2 + 0))
      as [[Hc ->] | [[Hc ->] | [Hc ->]]]; lra.
  - destruct (angle_warp_cases ((1 + 1) * (PI / 2) - PI / 2 + 0))
      as [[Hc ->] | [[Hc ->] | [Hc ->]]]; lra.
Qed.

Lemma wall_beam_end :
  beam_end wall_sensor 0 = (0 + 10 * 0, 0 + 10 * -1)
  /\ beam_end wall_sensor 1 = (0 + 10 * 1, 0 + 10 * 0)
  /\ beam_end wall_sensor 2 = (0 + 10 * 0, 0 + 10 * 1).
Proof.
  destruct wall_beam_phi as (H0 & H1 & H2). unfold beam_end.
  rewrite H0, H1, H2. rewrite cos_neg, sin_neg, cos_PI2, sin_PI2, cos_0, sin_0.
  done.
Qed.

(** The beam along +x meets the line of the wall at (5, 0). *)
Lemma wall_cross_point x_beam :
  x_beam <> 0 -> cross_point wall_sensor (5, -5) (5, 5) x_beam 0 = (5, 0).
Proof.
  intros Hx. unfold cross_point, det.
  cbn [wall_sensor init pose pose_x pose_y fst snd].
  f_equal; field; lra.
Qed.

Lemma wall_hit_phi : hit_phi wall_sensor 5 0 = 0.
Proof.
  pose proof PI_RGT_0. unfold hit_phi.
  cbn [wall_sensor init pose pose_x pose_y].
  assert (Ha : atan2 (0 - (5 - 0)) (0 - 0 - 0) = - (PI / 2)).
  { unfold atan2, Rgtb. split_cmp; lra. }
  rewrite Ha.
  destruct (angle_warp_cases (- (PI / 2) + 90 * PI / 180))
    as [[Hc ->] | [[Hc ->] | [Hc ->]]]; lra.
Qed.

(** A beam along the y axis is parallel to the wall. *)
Lemma wall_scan_parallel phi y_beam d :
  scan_line wall_sensor wall_map (seg_lengths wall_map) phi 0 y_beam 0 d
  = Ok d.
Proof.
  rewrite (scan_line_eq wall_sensor wall_map phi 0 y_beam 0 d
             (5, -5) (5, 5) 10); [|done|done|by rewrite wall_seg_lengths].
  assert (Hdiv : line_div wall_sensor (5, -5) (5, 5) 0 y_beam = 0).
  { unfold line_div, det.
    cbn [fst snd wall_sensor init pose pose_x pose_y]. lra. }
  by rewrite Hdiv, Reqb_refl.
Qed.

(** The beam along +x hits the wall at distance 5. *)
Lemma wall_scan_ahead :
  scan_line wall_sensor wall_map (seg_lengths wall_map) 0 10 0 0 10 = Ok 5.
Proof.
  rewrite (scan_line_eq wall_sensor wall_map 0 10 0 0 10
             (5, -5) (5, 5) 10); [|done|done|by rewrite wall_seg_lengths].
  assert (Hdiv : line_div wall_sensor (5, -5) (5, 5) 10 0 <> 0).
  { unfold line_div, det.
    cbn [fst snd wall_sensor init pose pose_x pose_y]. lra. }
  rewrite (Reqb_neq _ _ Hdiv). cbv zeta.
  rewrite wall_cross_point by lra. cbn [fst snd].
  rewrite wall_hit_phi, Reqb_refl.
  assert (Hd1 : sqrt ((5 - 5) ^ 2 + (-5 - 0) ^ 2) = 5)
    by (apply sqrt_of_square; lra).
  assert (Hd2 : sqrt ((5 - 5) ^ 2 + (5 - 0) ^ 2) = 5)
    by (apply sqrt_of_square; lra).
  assert (Hd : dist_to wall_sensor 5 0 = 5).
  { unfold dist_to. cbn [wall_sensor init pose pose_x pose_y].
    apply sqrt_of_square; lra. }
  rewrite Hd1, Hd2, Hd.
  rewrite !Rltb_lt by lra. done.
Qed.

Lemma wall_noiseless_range :
  noiseless_range wall_sensor wall_map 0 = 10
  /\ noiseless_range wall_sensor wall_map 1 = 5
  /\ noiseless_range wall_sensor wall_map 2 = 10.
Proof.
  destruct wall_beam_end as (E0 & E1 & E2).
  unfold noiseless_range, beam_range, range.
  change (seq 0 (Z.to_nat (Z.of_nat (length wall_map) - 1))) with [0%nat].
  cbn [rfor].
  repeat split.
  - change (pose_x (pose wall_sensor) + max_distance wall_sensor
              * cos (beam_phi wall_sensor 0))
      with (fst (beam_end wall_sensor 0)).
    change (pose_y (pose wall_sensor) + max_distance wall_sensor
              * sin (beam_phi wall_sensor 0))
      with (snd (beam_end wall_sensor 0)).
    rewrite E0. cbn [fst snd].
    replace (0 + 10 * 0) with 0 by lra.
    by rewrite wall_scan_parallel.
  - change (pose_x (pose wall_sensor) + max_distance wall_sensor
              * cos (beam_phi wall_sensor 1))
      with (fst (beam_end wall_sensor 1)).
    change (pose_y (pose wall_sensor) + max_distance wall_sensor
              * sin (beam_phi wall_sensor 1))
      with (snd (beam_end wall_sensor 1)).
    rewrite E1. cbn [fst snd].
    destruct wall_beam_phi as (_ & -> & _).
    replace (0 + 10 * 1) with 10 by lra. replace (0 + 10 * 0) with 0 by lra.
    change (max_distance wall_sensor) with 10.
    by rewrite wall_scan_ahead.
  - change (pose_x (pose wall_sensor) + max_distance wall_sensor
              * cos (beam_phi wall_sensor 2))
      with (fst (beam_end wall_sensor 2)).
    change (pose_y (pose wall_sensor) + max_distance wall_sensor
              * sin (beam_phi wall_sensor 2))
      with (snd (beam_end wall_sensor 2)).
    rewrite E2. cbn [fst snd].
    replace (0 + 10 * 0) with 0 by lra.
    by rewrite wall_scan_parallel.
Qed.

Lemma list_of_three (l : list R) (a b c : R) :
  length l = 3%nat ->
  l !! 0%nat = Some a -> l !! 1%nat = Some b -> l !! 2%nat = Some c ->
  l = [a; b; c].
Proof.
  intros Hl Ha Hb Hc.
  destruct l as [|x [|y [|z [|w l]]]]; try discriminate.
  cbn in Ha, Hb, Hc. congruence.
Qed.

(** C2.  FOV = PI, resolution = PI / 2, max_distance = 10, zero noise
    covariance, pose (0, 0, 0), and the map of the two points (5, -5) and
    (5, 5): whatever samples the generator delivers, the call returns a
    table of three beams whose ranges are 10, 5, 10 and whose bearings are
    -PI / 2, 0, PI / 2. *)
Theorem wall_observation (g : Rng) :
  n_beams wall_sensor = 3%Z
  /\ exists s',
       take_observation (mkStore wall_sensor wall_map g)
       = (Ok [[10; 5; 10]; [- (PI / 2); 0; PI / 2]], s').
Proof.
  split; [exact wall_sensor_n_beams|].
  destruct (take_observation_run (mkStore wall_sensor wall_map g)
              (wall_sensor_beam_count g wall_map))
    as (ranges & bearings & Hrun & Hlr & Hlb & Hrows).
  cbn [obj_self obj_map np_random] in Hrun, Hlr, Hlb, Hrows.
  rewrite wall_sensor_n_beams in Hlr, Hlb, Hrows.
  change (Z.to_nat 3) with 3%nat in Hlr, Hlb, Hrows.
  destruct wall_noiseless_range as (N0 & N1 & N2).
  assert (Hnoise : forall i, range_noise wall_sensor g i = 0
                             /\ bearing_noise wall_sensor g i = 0).
  { intros i. unfold range_noise, bearing_noise.
    cbn [wall_sensor init noise_cov zero_cov cov_00 cov_11].
    rewrite sqrt_0. split; lra. }
  destruct (Hrows 0%nat ltac:(lia)) as [R0 B0].
  destruct (Hrows 1%nat ltac:(lia)) as [R1 B1].
  destruct (Hrows 2%nat ltac:(lia)) as [R2 B2].
  rewrite N0 in R0. rewrite N1 in R1. rewrite N2 in R2.
  rewrite (proj1 (Hnoise 0%nat)) in R0. rewrite (proj1 (Hnoise 1%nat)) in R1.
  rewrite (proj1 (Hnoise 2%nat)) in R2.
  rewrite (proj2 (Hnoise 0%nat)) in B0. rewrite (proj2 (Hnoise 1%nat)) in B1.
  rewrite (proj2 (Hnoise 2%nat)) in B2.
  unfold beam_bearing in B0, B1, B2.
  cbn [wall_sensor init resolution FOV INR] in B0, B1, B2.
  assert (Hranges : ranges = [10; 5; 10]).
  { rewrite (list_of_three ranges _ _ _ Hlr R0 R1 R2). repeat f_equal; lra. }
  assert (Hbearings : bearings = [- (PI / 2); 0; PI / 2]).
  { rewrite (list_of_three bearings _ _ _ Hlb B0 B1 B2).
    repeat f_equal; lra. }
  eexists. rewrite Hrun, Hranges, Hbearings. reflexivity.
Qed.

Lemma direction_filter_witness :
  intersection wall_sensor wall_map 10 0 0 = Ok (Some (5, 0))
  /\ on_segment wall_map 0 5 0
  /\ - PI < hit_phi wall_sensor 5 0 <= PI
  /\ (np_sign 0 = np_sign (hit_phi wall_sensor 5 0) <->
      hit_phi wall_sensor 5 0 = 0).
Proof.
  assert (Hint : intersection wall_sensor wall_map 10 0 0 = Ok (Some (5, 0))).
  { rewrite (intersection_eq wall_sensor wall_map 10 0 0 (5, -5) (5, 5)
               eq_refl eq_refl).
    assert (Hdiv : line_div wall_sensor (5, -5) (5, 5) 10 0 <> 0).
    { unfold line_div, det.
      cbn [fst snd wall_sensor init pose pose_x pose_y]. lra. }
    rewrite (Reqb_neq _ _ Hdiv), wall_cross_point by lra. reflexivity. }
  assert (Hseg : on_segment wall_map 0 5 0).
  { exists (5, -5), (5, 5), 10.
    split; [reflexivity|]. split; [reflexivity|].
    split; [by rewrite wall_seg_lengths|]. cbn [fst snd].
    rewrite (sqrt_of_square ((5 - 5) ^ 2 + (-5 - 0) ^ 2) 5) by lra.
    rewrite (sqrt_of_square ((5 - 5) ^ 2 + (5 - 0) ^ 2) 5) by lra.
    lra. }
  split; [exact Hint|]. split; [exact Hseg|].
  destruct (direction_filter wall_sensor wall_map 0 10 0 0 10 5 0 Hint Hseg)
    as (Hrange & _ & _ & _ & Hzero & _).
  split; [exact Hrange|]. apply Hzero. reflexivity.
Defined.


(** ** Outcomes of a call *)


(** ** Calls without noise *)

Lemma zero_noise_rows (s : Store) :
  beam_count_ok (obj_self s) ->
  cov_00 (noise_cov (obj_self s)) = 0 ->
  cov_11 (noise_cov (obj_self s)) = 0 ->
  fst (take_observation s)
  = Ok [ (fun i => noiseless_range (obj_self s) (obj_map s) i)
           <$> seq 0 (Z.to_nat (n_beams (obj_self s)));
         (fun i => beam_bearing (obj_self s) i)
           <$> seq 0 (Z.to_nat (n_beams (obj_self s))) ].
Proof.
  intros Hok H00 H11.
  destruct (take_observation_run s Hok)
    as (ranges & bearings & -> & Hlr & Hlb & Hrows).
  cbn [fst]. f_equal. f_equal; [|f_equal].
  - apply list_eq. intros i. rewrite list_lookup_fmap.
    destruct (decide (i < Z.to_nat (n_beams (obj_self s)))%nat) as [Hi|Hi].
    + destruct (Hrows i Hi) as [-> _]. rewrite lookup_seq_lt by done.
      cbn. f_equal. unfold range_noise. rewrite H00, sqrt_0. lra.
    + rewrite lookup_ge_None_2 by lia.
      rewrite lookup_seq_ge by lia. done.
  - apply list_eq. intros i. rewrite list_lookup_fmap.
    destruct (decide (i < Z.to_nat (n_beams (obj_self s)))%nat) as [Hi|Hi].
    + destruct (Hrows i Hi) as [_ ->]. rewrite lookup_seq_lt by done.
      cbn. f_equal. unfold bearing_noise. rewrite H11, sqrt_0. lra.
    + rewrite lookup_ge_None_2 by lia.
      rewrite lookup_seq_ge by lia. done.
Qed.

(** With zero range and bearing variances the outcome of a call does not
    depend on the random generator: two stores with the same sensor and
    map give the same outcome, and so does a second call made right after
    the first. *)
Theorem zero_noise_repeatable (s1 s2 : Store) :
  cov_00 (noise_cov (obj_self s1)) = 0 ->
  cov_11 (noise_cov (obj_self s1)) = 0 ->
  obj_self s2 = obj_self s1 -> obj_map s2 = obj_map s1 ->
  fst (take_observation s2) = fst (take_observation s1)
  /\ fst (take_observation (snd (take_observation s1)))
     = fst (take_observation s1).
Proof.
  intros H00 H11.
  assert (Hsame : forall s, obj_self s = obj_self s1 -> obj_map s = obj_map s1 ->
                    fst (take_observation s) = fst (take_observation s1)).
  { intros s Hs Hm.
    destruct (Req_dec_T (resolution (obj_self s1)) 0) as [H0|Hne].
    { rewrite !take_observation_zero_resolution; [done|done|by rewrite Hs]. }
    destruct (Z.lt_ge_cases (n_beams (obj_self s1)) 0) as [Hneg|Hpos].
    { rewrite !take_observation_negative_count; try done; by rewrite Hs. }
    rewrite (zero_noise_rows s), (zero_noise_rows s1); try done;
      try (by rewrite Hs).
    by rewrite Hs, Hm. }
  intros Hs Hm. split; [by apply Hsame|].
  destruct (take_observation_store s1) as [-> | ->]; by apply Hsame.
Qed.

Lemma zero_noise_repeatable_witness :
  fst (take_observation (mkStore wall_sensor wall_map (mkRng (fun _ => 7) 3)))
  = fst (take_observation (mkStore wall_sensor wall_map counting_rng)).
Proof.
  apply (zero_noise_repeatable
           (mkStore wall_sensor wall_map counting_rng)
           (mkStore wall_sensor wall_map (mkRng (fun _ => 7) 3)));
    reflexivity.
Defined.

(** ** The fan of bearings *)



(** ** Geometry of a hit *)

(** A vector parallel to a unit vector is a multiple of it. *)
Lemma along_unit (c s dx dy : R) :
  c * c + s * s = 1 -> dx * s = dy * c ->
  dx = (dx * c + dy * s) * c /\ dy = (dx * c + dy * s) * s
  /\ sqrt (dx ^ 2 + dy ^ 2) = Rabs (dx * c + dy * s).
Proof.
  intros Hu Hp.
  assert (Hx : dx = (dx * c + dy * s) * c).
  { transitivity (dx * (c * c + s * s)); [rewrite Hu; ring|].
    replace (dx * (c * c + s * s)) with (dx * c * c + dx * s * s) by ring.
    rewrite Hp. ring. }
  assert (Hy : dy = (dx * c + dy * s) * s).
  { transitivity (dy * (c * c + s * s)); [rewrite Hu; ring|].
    replace (dy * (c * c + s * s)) with (dy * c * c + dy * s * s) by ring.
    rewrite <- Hp. ring. }
  split; [exact Hx|]. split; [exact Hy|].
  rewrite <- sqrt_Rsqr_abs. f_equal. unfold Rsqr. nra.
Qed.

Lemma cos_sin_unit phi : cos phi * cos phi + sin phi * sin phi = 1.
Proof. pose proof (sin2_cos2 phi) as H. unfold Rsqr in H. lra. Qed.

(** The point of lines 77-79 lies on the line of the beam and on the line
    of the segment. *)
Lemma cross_point_on_lines self (p1 p2 : Point) x_beam y_beam :
  line_div self p1 p2 x_beam y_beam <> 0 ->
  let c := cross_point self p1 p2 x_beam y_beam in
  (fst c - pose_x (pose self)) * (y_beam - pose_y (pose self))
  = (snd c - pose_y (pose self)) * (x_beam - pose_x (pose self))
  /\ (fst c - fst p1) * (snd p2 - snd p1)
     = (snd c - snd p1) * (fst p2 - fst p1).
Proof.
  intros Hdiv c. unfold c, cross_point. cbv zeta. cbn [fst snd].
  unfold line_div in Hdiv.
  set (px := pose_x (pose self)) in *. set (py := pose_y (pose self)) in *.
  destruct p1 as [x1 y1], p2 as [x2 y2]. cbn [fst snd] in *.
  set (dv := det (x1 - x2, px - x_beam) (y1 - y2, py - y_beam)) in *.
  assert (Hx : forall a, a / dv * dv = a) by (intros a; by field).
  split.
  - apply (Rmult_eq_reg_r dv); [|done].
    transitivity
      (det (det (x1, y1) (x2, y2), det (px, py) (x_beam, y_beam))
           (x1 - x2, px - x_beam) / dv * dv * (y_beam - py)
       - px * dv * (y_beam - py)); [ring|].
    transitivity
      (det (det (x1, y1) (x2, y2), det (px, py) (x_beam, y_beam))
           (y1 - y2, py - y_beam) / dv * dv * (x_beam - px)
       - py * dv * (x_beam - px)); [|ring].
    rewrite !Hx. unfold dv, det. cbn [fst snd]. ring.
  - apply (Rmult_eq_reg_r dv); [|done].
    transitivity
      (det (det (x1, y1) (x2, y2), det (px, py) (x_beam, y_beam))
           (x1 - x2, px - x_beam) / dv * dv * (y2 - y1)
       - x1 * dv * (y2 - y1)); [ring|].
    transitivity
      (det (det (x1, y1) (x2, y2), det (px, py) (x_beam, y_beam))
           (y1 - y2, py - y_beam) / dv * dv * (x2 - x1)
       - y1 * dv * (x2 - x1)); [|ring].
    rewrite !Hx. unfold dv, det. cbn [fst snd]. ring.
Qed.

(** The sign of [math.atan2]. *)
Lemma atan_sign z : (0 < z -> 0 < atan z) /\ (z < 0 -> atan z < 0).
Proof.
  split; intros H; pose proof (atan_increasing _ _ H) as Hi;
    rewrite atan_0 in Hi; lra.
Qed.

Lemma np_sign_atan2 y x :
  np_sign (atan2 y x)
  = if Rltb y 0 then -1
    else if Rltb 0 y then 1
    else if Rltb x 0 then 1 else 0.
Proof.
  pose proof PI_RGT_0 as Hpi. pose proof (atan_bound (y / x)) as Hb.
  assert (Hs : forall a, np_sign a = if Rltb a 0 then -1
                                     else if Rltb 0 a then 1 else 0) by done.
  destruct (Rtotal_order x 0) as [Hx | [Hx | Hx]].
  - rewrite (atan2_neg_x y x Hx), (Rltb_lt x 0 Hx).
    destruct (Rltb y 0) eqn:Ey.
    + apply Rltb_true in Ey. rewrite Hs, Rltb_lt by lra. done.
    + apply Rltb_false in Ey. rewrite Hs, Rltb_ge, Rltb_lt by lra.
      by destruct (Rltb 0 y).
  - rewrite Hx, atan2_zero_x, (Rltb_ge 0 0) by lra.
    destruct (Rltb 0 y) eqn:Ey; [apply Rltb_true in Ey|apply Rltb_false in Ey].
    + rewrite (Rltb_ge y 0) by lra. rewrite Hs, Rltb_ge, Rltb_lt by lra. done.
    + destruct (Rltb y 0) eqn:Ey'; [apply Rltb_true in Ey'|apply Rltb_false in Ey'].
      * rewrite Hs, Rltb_lt by lra. done.
      * rewrite Hs, !Rltb_ge by lra. done.
  - rewrite (atan2_pos_x y x Hx), (Rltb_ge x 0) by lra.
    destruct (atan_sign (y / x)) as [Hp Hn].
    destruct (Rtotal_order y 0) as [Hy | [Hy | Hy]].
    + rewrite (Rltb_lt y 0) by done.
      assert (y / x < 0) by (by apply Rdiv_neg_pos).
      rewrite Hs, Rltb_lt by auto. done.
    + rewrite Hy, Rdiv_0_l, atan_0, Hs, !Rltb_ge by lra. done.
    + rewrite (Rltb_ge y 0), (Rltb_lt 0 y) by lra.
      assert (0 < y / x) by (by apply Rdiv_pos_pos).
      rewrite Hs, Rltb_ge, Rltb_lt by (auto; apply Rlt_le; auto). done.
Qed.

(** The sign of the angle of lines 94-98, from the offsets of the point. *)
Lemma np_sign_hit_phi self x y :
  np_sign (hit_phi self x y)
  = if Rltb (y - pose_y (pose self)) 0 then -1
    else if Rltb 0 (y - pose_y (pose self)) then 1
    else if Rltb 0 (x - pose_x (pose self)) then 0 else 1.
Proof.
  pose proof PI_RGT_0 as Hpi.
  destruct (Req_dec_T x (pose_x (pose self))) as [Hx|Hx];
    [destruct (Req_dec_T y (pose_y (pose self))) as [Hy|Hy]|].
  - subst x y. unfold hit_phi.
    replace (0 - (pose_x (pose self) - pose_x (pose self))) with 0 by lra.
    replace (pose_y (pose self) - pose_y (pose self) - 0) with 0 by lra.
    rewrite atan2_zero_x, !(Rltb_ge 0 0) by lra.
    replace (pose_y (pose self) - pose_y (pose self)) with 0 by lra.
    replace (pose_x (pose self) - pose_x (pose self)) with 0 by lra.
    rewrite !(Rltb_ge 0 0) by lra.
    destruct (angle_warp_cases (0 + 90 * PI / 180))
      as [[Hc ->] | [[Hc ->] | [Hc ->]]]; try lra.
    unfold np_sign, Rgtb. rewrite Rltb_ge, Rltb_lt by lra. done.
  - rewrite hit_phi_bearing by congruence. rewrite np_sign_atan2.
    subst x. replace (pose_x (pose self) - pose_x (pose self)) with 0 by lra.
    rewrite !(Rltb_ge 0 0) by lra.
    destruct (Rltb (y - pose_y (pose self)) 0) eqn:E1; [done|].
    destruct (Rltb 0 (y - pose_y (pose self))) eqn:E2; [done|].
    apply Rltb_false in E1, E2. destruct Hy. lra.
  - rewrite hit_phi_bearing by congruence. rewrite np_sign_atan2.
    destruct (Rltb (y - pose_y (pose self)) 0); [done|].
    destruct (Rltb 0 (y - pose_y (pose self))); [done|].
    destruct (Rltb (x - pose_x (pose self)) 0) eqn:E1;
      [apply Rltb_true in E1|apply Rltb_false in E1].
    + rewrite Rltb_ge by lra. done.
    + rewrite Rltb_lt; [done|]. destruct E1 as [E1|E1]; [lra|].
      destruct Hx. lra.
Qed.

(** What a valid hit is made of. *)
Lemma valid_hit_parts self map i_beam i_line dist :
  valid_hit self map i_beam i_line dist ->
  exists p1 p2 x y,
    map !! i_line = Some p1 /\ map !! (i_line + 1)%nat = Some p2
    /\ line_div self p1 p2 (fst (beam_end self i_beam))
         (snd (beam_end self i_beam)) <> 0
    /\ (x, y) = cross_point self p1 p2 (fst (beam_end self i_beam))
                  (snd (beam_end self i_beam))
    /\ intersection self map (fst (beam_end self i_beam))
         (snd (beam_end self i_beam)) i_line = Ok (Some (x, y))
    /\ np_sign (beam_phi self i_beam) = np_sign (hit_phi self x y)
    /\ dist = dist_to self x y.
Proof.
  intros (x & y & Hint & (p1 & p2 & len & H1 & H2 & _) & Hside & Hdist).
  exists p1, p2, x, y. split; [done|]. split; [done|].
  pose proof Hint as Hint'.
  rewrite (intersection_eq self map _ _ _ _ _ H1 H2) in Hint'.
  destruct (Reqb (line_div self p1 p2 _ _) 0) eqn:E; [done|].
  apply Reqb_false in E. split; [done|]. split; [congruence|done].
Qed.

(** The offsets of a hit from the sensor are a multiple [t] of the unit
    vector of the beam, and the distance is the absolute value of [t]. *)
Lemma valid_hit_offsets self map i_beam i_line dist :
  valid_hit self map i_beam i_line dist ->
  exists x y t,
    intersection self map (fst (beam_end self i_beam))
      (snd (beam_end self i_beam)) i_line = Ok (Some (x, y))
    /\ x - pose_x (pose self) = t * cos (beam_phi self i_beam)
    /\ y - pose_y (pose self) = t * sin (beam_phi self i_beam)
    /\ dist = Rabs t
    /\ np_sign (beam_phi self i_beam) = np_sign (hit_phi self x y).
Proof.
  intros Hv.
  destruct (valid_hit_parts _ _ _ _ _ Hv)
    as (p1 & p2 & x & y & H1 & H2 & Hdiv & Hc & Hint & Hside & ->).
  destruct (cross_point_on_lines self p1 p2 _ _ Hdiv) as [Hline _].
  rewrite <- Hc in Hline. cbn [fst snd] in Hline.
  set (phi := beam_phi self i_beam) in *.
  set (dx := x - pose_x (pose self)) in *.
  set (dy := y - pose_y (pose self)) in *.
  assert (HM : max_distance self <> 0).
  { intros HM. apply Hdiv. unfold line_div, det, beam_end. cbn [fst snd].
    rewrite HM. ring. }
  assert (Hpar : dx * sin phi = dy * cos phi).
  { apply (Rmult_eq_reg_l (max_distance self)); [|done].
    unfold beam_end in Hline. cbn [fst snd] in Hline. fold phi in Hline.
    lra. }
  destruct (along_unit (cos phi) (sin phi) dx dy (cos_sin_unit phi) Hpar)
    as (Hx & Hy & Hd).
  exists x, y, (dx * cos phi + dy * sin phi).
  split; [done|]. split; [done|]. split; [done|]. split; [|done].
  rewrite <- Hd. unfold dist_to, dx, dy. f_equal. ring.
Qed.

(** ** The direction filter is sound for warped angles *)

Lemma hit_offset_nonneg (self : Laser2D) (map : Map) (i_beam i_line : nat)
    (dist : R) :
  - PI <= beam_phi self i_beam <= PI ->
  valid_hit self map i_beam i_line dist ->
  exists x y,
    intersection self map (fst (beam_end self i_beam))
      (snd (beam_end self i_beam)) i_line = Ok (Some (x, y))
    /\ x - pose_x (pose self) = dist * cos (beam_phi self i_beam)
    /\ y - pose_y (pose self) = dist * sin (beam_phi self i_beam)
    /\ 0 <= dist.
Proof.
  intros Hphi Hv. pose proof PI_RGT_0 as Hpi.
  destruct (valid_hit_offsets _ _ _ _ _ Hv)
    as (x & y & t & Hint & Hx & Hy & -> & Hside).
  exists x, y. split; [done|].
  rewrite np_sign_hit_phi, Hx, Hy in Hside.
  set (phi := beam_phi self i_beam) in *.
  assert (Ht : 0 <= t).
  { destruct (Rle_lt_dec 0 t) as [?|Hneg]; [done|]. exfalso.
    assert (Hs : forall a, np_sign a = if Rltb a 0 then -1
                                       else if Rltb 0 a then 1 else 0) by done.
    rewrite Hs in Hside.
    destruct (Rtotal_order phi 0) as [Hlt | [H0 | Hgt]].
    - rewrite (Rltb_lt phi 0) in Hside by done.
      destruct Hphi as [[Hlo|Heq] _].
      + pose proof (sin_lt_0_var phi Hlo Hlt).
        rewrite (Rltb_ge (t * sin phi) 0), (Rltb_lt 0 (t * sin phi))
          in Hside by nra. lra.
      + rewrite <- Heq, sin_neg, cos_neg, sin_PI, cos_PI in Hside.
        rewrite (Rltb_ge (t * - 0) 0), (Rltb_ge 0 (t * - 0)),
          (Rltb_lt 0 (t * -1)) in Hside by lra. lra.
    - rewrite H0, sin_0, cos_0 in Hside.
      rewrite !(Rltb_ge 0 0), (Rltb_ge (t * 0) 0), (Rltb_ge 0 (t * 0)),
        (Rltb_ge 0 (t * 1)) in Hside by lra. lra.
    - rewrite (Rltb_ge phi 0), (Rltb_lt 0 phi) in Hside by lra.
      destruct Hphi as [_ [Hhi|Heq]].
      + pose proof (sin_gt_0 phi Hgt Hhi).
        rewrite (Rltb_lt (t * sin phi) 0) in Hside by nra. lra.
      + rewrite Heq, sin_PI, cos_PI in Hside.
        rewrite (Rltb_ge (t * 0) 0), (Rltb_ge 0 (t * 0)),
          (Rltb_lt 0 (t * -1)) in Hside by lra. lra. }
  rewrite (Rabs_pos_eq t Ht). done.
Qed.



(** ** The segment check *)

Lemma seg_lengths_lookup (map : Map) i p1 p2 :
  map !! i = Some p1 -> map !! (i + 1)%nat = Some p2 ->
  seg_lengths map !! i
  = Some (sqrt ((fst p1 - fst p2) ^ 2 + (snd p1 - snd p2) ^ 2)).
Proof.
  intros H1 H2. unfold seg_lengths. rewrite lookup_zip_with.
  rewrite removelast_firstn_len, lookup_take_lt, H1.
  - rewrite lookup_tail. replace (S i) with (i + 1)%nat by lia.
    by rewrite H2.
  - apply lookup_lt_Some in H2. lia.
Qed.

(** For a point of the line through [p1] and [p2], the two distances of
    lines 85-86 are the distances along the line from the two ends. *)
Lemma collinear_distances (p1 p2 : Point) (x y : R) :
  p1 <> p2 ->
  (x - fst p1) * (snd p2 - snd p1) = (y - snd p1) * (fst p2 - fst p1) ->
  let len := sqrt ((fst p1 - fst p2) ^ 2 + (snd p1 - snd p2) ^ 2) in
  0 < len
  /\ sqrt ((fst p1 - x) ^ 2 + (snd p1 - y) ^ 2) = Rabs (along p1 p2 x y)
  /\ sqrt ((fst p2 - x) ^ 2 + (snd p2 - y) ^ 2)
     = Rabs (len - along p1 p2 x y).
Proof.
  destruct p1 as [x1 y1], p2 as [x2 y2]. cbv beta iota zeta delta [fst snd].
  intros Hne Hcol.
  set (len := sqrt ((x1 - x2) ^ 2 + (y1 - y2) ^ 2)).
  assert (Hsq : 0 < (x1 - x2) ^ 2 + (y1 - y2) ^ 2).
  { replace ((x1 - x2) ^ 2 + (y1 - y2) ^ 2)
      with (Rsqr (x1 - x2) + Rsqr (y1 - y2)) by (unfold Rsqr; ring).
    pose proof (Rle_0_sqr (x1 - x2)). pose proof (Rle_0_sqr (y1 - y2)).
    destruct (Req_dec_T x1 x2) as [Hx|Hx].
    - destruct (Req_dec_T y1 y2) as [Hy|Hy]; [by subst|].
      assert (Hd : y1 - y2 <> 0) by (intros H'; apply Hy; lra).
      apply Rsqr_pos_lt in Hd. lra.
    - assert (Hd : x1 - x2 <> 0) by (intros H'; apply Hx; lra).
      apply Rsqr_pos_lt in Hd. lra. }
  assert (Hlen : 0 < len) by (by apply sqrt_lt_R0).
  assert (Hlen2 : len * len = (x1 - x2) ^ 2 + (y1 - y2) ^ 2)
    by (apply sqrt_sqrt; lra).
  split; [exact Hlen|].
  set (c := (x2 - x1) / len). set (s := (y2 - y1) / len).
  assert (Hu : c * c + s * s = 1).
  { assert (Hl : (x2 - x1) * (x2 - x1) + (y2 - y1) * (y2 - y1) = len * len)
      by (rewrite Hlen2; ring).
    unfold c, s.
    replace ((x2 - x1) / len * ((x2 - x1) / len)
             + (y2 - y1) / len * ((y2 - y1) / len))
      with (((x2 - x1) * (x2 - x1) + (y2 - y1) * (y2 - y1)) / (len * len))
      by (field; lra).
    rewrite Hl. field. lra. }
  assert (Hpar : (x - x1) * s = (y - y1) * c).
  { unfold c, s. apply (Rmult_eq_reg_r len); [|lra].
    replace ((x - x1) * ((y2 - y1) / len) * len)
      with ((x - x1) * (y2 - y1)) by (field; lra).
    replace ((y - y1) * ((x2 - x1) / len) * len)
      with ((y - y1) * (x2 - x1)) by (field; lra).
    exact Hcol. }
  assert (Halong : along (x1, y1) (x2, y2) x y = (x - x1) * c + (y - y1) * s).
  { unfold along, c, s. cbn [fst snd]. fold len. field. lra. }
  destruct (along_unit c s (x - x1) (y - y1) Hu Hpar) as (Hx & Hy & Hd).
  rewrite Halong. set (t := (x - x1) * c + (y - y1) * s) in *.
  split.
  - rewrite <- Hd. f_equal. ring.
  - assert (Hx2 : x2 - x = (len - t) * c).
    { unfold c at 1. unfold c in Hx. fold t in Hx.
      replace (x2 - x) with (x2 - x1 - (x - x1)) by ring. rewrite Hx.
      unfold c. field. lra. }
    assert (Hy2 : y2 - y = (len - t) * s).
    { replace (y2 - y) with (y2 - y1 - (y - y1)) by ring. rewrite Hy.
      unfold s. field. lra. }
    rewrite <- sqrt_Rsqr_abs. f_equal. unfold Rsqr.
    transitivity ((len - t) * (len - t) * (c * c + s * s)).
    + rewrite Hx2, Hy2. ring.
    + rewrite Hu. ring.
Qed.

(** An intersection point passes the segment check of lines 89-90
    exactly when it lies on the segment or beyond one of its ends by less
    than 0.05, measured along the segment. *)
Theorem segment_check_window (self : Laser2D) (map : Map)
    (x_beam y_beam : R) (i_line : nat) (x y : R) :
  intersection self map x_beam y_beam i_line = Ok (Some (x, y)) ->
  exists p1 p2,
    map !! i_line = Some p1 /\ map !! (i_line + 1)%nat = Some p2
    /\ (on_segment map i_line x y <->
        - (5 / 100) < along p1 p2 x y
        < sqrt ((fst p1 - fst p2) ^ 2 + (snd p1 - snd p2) ^ 2) + 5 / 100).
Proof.
  intros Hint.
  destruct (map !! i_line) as [p1|] eqn:H1;
    [|unfold intersection, getitem in Hint; by rewrite H1 in Hint].
  destruct (map !! (i_line + 1)%nat) as [p2|] eqn:H2;
    [|unfold intersection, getitem in Hint; by rewrite H1, H2 in Hint].
  exists p1, p2. split; [done|]. split; [done|].
  rewrite (intersection_eq self map _ _ _ _ _ H1 H2) in Hint.
  destruct (Reqb (line_div self p1 p2 x_beam y_beam) 0) eqn:E; [done|].
  apply Reqb_false in E.
  destruct (cross_point_on_lines self p1 p2 _ _ E) as [_ Hcol].
  assert (Hc : cross_point self p1 p2 x_beam y_beam = (x, y)) by congruence.
  rewrite Hc in Hcol. cbn [fst snd] in Hcol.
  assert (Hne : p1 <> p2).
  { intros ->. by apply E, zero_length_div. }
  destruct (collinear_distances p1 p2 x y Hne Hcol) as (Hlen & Hd1 & Hd2).
  pose proof (seg_lengths_lookup map i_line p1 p2 H1 H2) as Hseg.
  set (len := sqrt ((fst p1 - fst p2) ^ 2 + (snd p1 - snd p2) ^ 2)) in *.
  split.
  - intros (q1 & q2 & l & Hq1 & Hq2 & Hl & Hc1 & Hc2).
    rewrite H1 in Hq1. rewrite H2 in Hq2. rewrite Hseg in Hl.
    injection Hq1 as <-. injection Hq2 as <-. injection Hl as <-.
    rewrite Hd1 in Hc1. rewrite Hd2 in Hc2.
    revert Hc1 Hc2. unfold Rabs.
    destruct (Rcase_abs _), (Rcase_abs _); lra.
  - intros [Hlo Hhi]. exists p1, p2, len.
    split; [done|]. split; [done|]. split; [done|].
    rewrite Hd1, Hd2. unfold Rabs.
    destruct (Rcase_abs _), (Rcase_abs _); lra.
Qed.

(** ** Longer maps *)

Lemma valid_hit_app self (map more : Map) i_beam i_line dist :
  valid_hit self map i_beam i_line dist ->
  valid_hit self (map ++ more) i_beam i_line dist.
Proof.
  intros (x & y & Hint & (p1 & p2 & len & H1 & H2 & Hl & Hd1 & Hd2)
          & Hside & Hdist).
  assert (H1' : (map ++ more) !! i_line = Some p1).
  { rewrite lookup_app_l; [done|]. by apply lookup_lt_Some in H1. }
  assert (H2' : (map ++ more) !! (i_line + 1)%nat = Some p2).
  { rewrite lookup_app_l; [done|]. by apply lookup_lt_Some in H2. }
  exists x, y. split; [|split; [|done]].
  - rewrite (intersection_eq self map _ _ _ _ _ H1 H2) in Hint.
    by rewrite (intersection_eq self (map ++ more) _ _ _ _ _ H1' H2').
  - exists p1, p2, len. split; [done|]. split; [done|]. split; [|done].
    rewrite (seg_lengths_lookup map _ _ _ H1 H2) in Hl.
    by rewrite (seg_lengths_lookup (map ++ more) _ _ _ H1' H2').
Qed.

(** Appending points to the map never makes a beam see farther: the range
    before noise against the longer map is at most the range against the
    map. *)
Theorem longer_map_no_farther (self : Laser2D) (map more : Map)
    (i_beam : nat) :
  exists d d',
    beam_range self map (seg_lengths map) i_beam = Ok d
    /\ beam_range self (map ++ more) (seg_lengths (map ++ more)) i_beam
       = Ok d'
    /\ d' <= d.
Proof.
  exists (noiseless_range self map i_beam),
    (noiseless_range self (map ++ more) i_beam).
  split; [apply beam_range_noiseless|]. split; [apply beam_range_noiseless|].
  destruct (beam_range_closest self map i_beam) as (Hin & _ & _).
  destruct (beam_range_closest self (map ++ more) i_beam)
    as (_ & Hmax' & Hleast').
  destruct Hin as [-> | (k & Hv)]; [done|].
  apply (Hleast' k). by apply valid_hit_app.
Qed.

(** ** Moving the sensor and the map together *)

Lemma rfor_ext {St : Type} (l : list nat) (f g : nat -> St -> result St) s :
  (forall i s', i ∈ l -> f i s' = g i s') -> rfor l f s = rfor l g s.
Proof.
  revert s. induction l as [|i l IH]; intros s H; [done|].
  cbn [rfor]. rewrite (H i s) by constructor.
  destruct (g i s) as [s1|e]; [|done]. cbn [rbind].
  apply IH. intros j s' Hj. apply H. by constructor.
Qed.

Section Shift.
Variables (self : Laser2D) (map : Map) (a b : R).

Local Abbreviation self' :=
  (mkLaser2D (FOV self) (resolution self) (max_distance self)
     (noise_cov self) (shift_pose a b (pose self)) (last_z self)).
Local Abbreviation map' := (shift_map a b map).

Lemma shift_lookup i p :
  map !! i = Some p -> map' !! i = Some (fst p + a, snd p + b).
Proof. intros H. unfold shift_map. by rewrite list_lookup_fmap, H. Qed.

Lemma shift_beam_phi i_beam : beam_phi self' i_beam = beam_phi self i_beam.
Proof. done. Qed.

Lemma shift_seg_lengths : seg_lengths map' = seg_lengths map.
Proof.
  apply list_eq. intros i.
  destruct (decide (i + 1 < length map)%nat) as [Hi|Hi].
  - destruct (lookup_lt_is_Some_2 map i) as [p1 H1]; [lia|].
    destruct (lookup_lt_is_Some_2 map (i + 1)) as [p2 H2]; [lia|].
    rewrite (seg_lengths_lookup map _ _ _ H1 H2).
    rewrite (seg_lengths_lookup map' _ _ _ (shift_lookup _ _ H1)
               (shift_lookup _ _ H2)).
    cbn [fst snd]. do 2 f_equal. ring.
  - rewrite !lookup_ge_None_2; [done| |].
    + rewrite seg_lengths_length. lia.
    + rewrite seg_lengths_length. unfold shift_map.
      rewrite length_fmap. lia.
Qed.

Lemma shift_line_div (p1 p2 : Point) x_beam y_beam :
  line_div self' (fst p1 + a, snd p1 + b) (fst p2 + a, snd p2 + b)
    (x_beam + a) (y_beam + b)
  = line_div self p1 p2 x_beam y_beam.
Proof. unfold line_div, det. cbn. ring. Qed.

Lemma shift_cross_point (p1 p2 : Point) x_beam y_beam :
  line_div self p1 p2 x_beam y_beam <> 0 ->
  cross_point self' (fst p1 + a, snd p1 + b) (fst p2 + a, snd p2 + b)
    (x_beam + a) (y_beam + b)
  = (fst (cross_point self p1 p2 x_beam y_beam) + a,
     snd (cross_point self p1 p2 x_beam y_beam) + b).
Proof.
  intros Hdiv. unfold line_div in Hdiv. unfold cross_point.
  cbv zeta. cbn [fst snd pose pose_x pose_y shift_pose].
  destruct p1 as [x1 y1], p2 as [x2 y2]. cbn [fst snd] in *.
  unfold det in *. cbn [fst snd] in *.
  f_equal; field; lra.
Qed.

Lemma shift_scan_line phi x_beam y_beam i_line d :
  (i_line < Z.to_nat (Z.of_nat (length map) - 1))%nat ->
  scan_line self' map' (seg_lengths map') phi (x_beam + a) (y_beam + b)
    i_line d
  = scan_line self map (seg_lengths map) phi x_beam y_beam i_line d.
Proof.
  intros Hi.
  destruct (segment_lookup map i_line Hi) as (p1 & p2 & len & H1 & H2 & H3).
  rewrite (scan_line_eq self map _ _ _ _ _ _ _ _ H1 H2 H3).
  rewrite (scan_line_eq self' map' _ _ _ _ _ _ _ _ (shift_lookup _ _ H1)
             (shift_lookup _ _ H2)
             ltac:(rewrite shift_seg_lengths; exact H3)).
  rewrite shift_line_div.
  destruct (Reqb (line_div self p1 p2 x_beam y_beam) 0) eqn:E; [done|].
  apply Reqb_false in E. cbv zeta. rewrite (shift_cross_point _ _ _ _ E).
  destruct (cross_point self p1 p2 x_beam y_beam) as [x y].
  cbn [fst snd].
  replace (fst p1 + a - (x + a)) with (fst p1 - x) by ring.
  replace (snd p1 + b - (y + b)) with (snd p1 - y) by ring.
  replace (fst p2 + a - (x + a)) with (fst p2 - x) by ring.
  replace (snd p2 + b - (y + b)) with (snd p2 - y) by ring.
  assert (Hphi : hit_phi self' (x + a) (y + b) = hit_phi self x y).
  { unfold hit_phi. cbn [pose pose_x pose_y shift_pose].
    do 3 f_equal; ring. }
  assert (Hd : dist_to self' (x + a) (y + b) = dist_to self x y).
  { unfold dist_to. cbn [pose pose_x pose_y shift_pose]. f_equal. ring. }
  by rewrite Hphi, Hd.
Qed.

Lemma shift_beam_range i_beam :
  beam_range self' map' (seg_lengths map') i_beam
  = beam_range self map (seg_lengths map) i_beam.
Proof.
  unfold beam_range. rewrite shift_beam_phi.
  cbn [pose pose_x pose_y shift_pose max_distance].
  replace (length map') with (length map)
    by (unfold shift_map; by rewrite length_fmap).
  replace (pose_x (pose self) + a
           + max_distance self * cos (beam_phi self i_beam))
    with (pose_x (pose self)
          + max_distance self * cos (beam_phi self i_beam) + a) by ring.
  replace (pose_y (pose self) + b
           + max_distance self * sin (beam_phi self i_beam))
    with (pose_y (pose self)
          + max_distance self * sin (beam_phi self i_beam) + b) by ring.
  apply rfor_ext. intros i s' Hi. apply shift_scan_line.
  unfold range in Hi. apply elem_of_seq in Hi. lia.
Qed.
End Shift.


(** ** Drawing an observation *)

Lemma cos_sin_angle_warp a :
  cos (angle_warp a) = cos a /\ sin (angle_warp a) = sin a.
Proof.
  destruct (angle_warp_cases a) as [[_ ->] | [[_ ->] | [_ ->]]]; [| |done].
  - rewrite cos_minus, sin_minus, cos_2PI, sin_2PI. split; ring.
  - rewrite cos_plus, sin_plus, cos_2PI, sin_2PI. split; ring.
Qed.

Lemma draw_beam_two (ranges bearings : list R) (p : Pose) i r b ax :
  ranges !! i = Some r -> bearings !! i = Some b ->
  draw_beam [ranges; bearings] p i ax
  = Ok (ax ++ [dashed_line (ray_point p (b + pose_theta p) r) p;
               marker (ray_point p (b + pose_theta p) r)]).
Proof.
  intros Hr Hb. unfold draw_beam. cbn [column].
  rewrite (getitem_Some _ _ _ Hr), (getitem_Some _ _ _ Hb). done.
Qed.

Lemma draw_loop_two (ranges bearings : list R) (p : Pose) :
  forall m k ax,
    (k + m <= length ranges)%nat -> (k + m <= length bearings)%nat ->
    draw_loop (seq k m) (draw_beam [ranges; bearings] p) ax
    = (Ok tt,
       ax ++ artists (end_points (take m (drop k ranges))
                        (take m (drop k bearings)) p) p).
Proof.
  induction m as [|m IH]; intros k ax Hr Hb.
  - cbn. by rewrite app_nil_r.
  - destruct (lookup_lt_is_Some_2 ranges k) as [r Hkr]; [lia|].
    destruct (lookup_lt_is_Some_2 bearings k) as [b Hkb]; [lia|].
    cbn [seq draw_loop]. rewrite (draw_beam_two _ _ _ _ _ _ _ Hkr Hkb).
    rewrite IH by lia.
    rewrite (drop_S _ _ _ Hkr), (drop_S _ _ _ Hkb).
    cbn [take end_points zip_with artists flat_map].
    by rewrite <- app_assoc.
Qed.

Lemma draw_two_rows (ranges bearings : list R) (p : Pose)
    (ax : list PlotCall) :
  length bearings = length ranges ->
  draw_observation [ranges; bearings] p ax
  = (Ok tt, ax ++ artists (end_points ranges bearings p) p)
  /\ length (artists (end_points ranges bearings p) p)
     = (2 * length ranges)%nat.
Proof.
  intros Hlen. split.
  - unfold draw_observation, np_shape1, range. rewrite Nat2Z.id.
    rewrite draw_loop_two by lia. rewrite !drop_0.
    rewrite <- Hlen at 2. by rewrite !firstn_all.
  - unfold artists. rewrite flat_map_constant_length with (c := 2%nat);
      [|done].
    unfold end_points. rewrite length_zip_with. lia.
Qed.

Lemma artists_lookup (pts : list (R * R)) (p : Pose) i c :
  pts !! i = Some c ->
  artists pts p !! (2 * i)%nat = Some (dashed_line c p)
  /\ artists pts p !! (2 * i + 1)%nat = Some (marker c).
Proof.
  revert i. induction pts as [|c0 pts IH]; intros i Hi; [done|].
  destruct i as [|i]; cbn in Hi.
  - injection Hi as ->. done.
  - destruct (IH i Hi) as [H1 H2].
    replace (2 * S i)%nat with (S (S (2 * i))) by lia.
    replace (S (S (2 * i)) + 1)%nat with (S (S (2 * i + 1))) by lia.
    done.
Qed.

Lemma ray_point_distance (p : Pose) phi d :
  (fst (ray_point p phi d) - pose_x p) ^ 2
  + (snd (ray_point p phi d) - pose_y p) ^ 2 = d ^ 2.
Proof.
  unfold ray_point. cbn [fst snd]. pose proof (cos_sin_unit phi). nra.
Qed.

(** On a table of two rows of equal length, [draw_observation] does not
    fail; it leaves the calls already on the axes in place and adds, beam
    after beam, a dashed line from the end point of the beam to the pose
    and a marker on the end point: two calls per beam.  The end point of a
    beam is as far from the pose as the absolute value of its range. *)
Theorem draw_observation_two_rows (ranges bearings : list R) (p : Pose)
    (ax : list PlotCall) :
  length bearings = length ranges ->
  exists new,
    draw_observation [ranges; bearings] p ax = (Ok tt, ax ++ new)
    /\ length new = (2 * length ranges)%nat
    /\ forall i r b,
         ranges !! i = Some r -> bearings !! i = Some b ->
         exists c,
           new !! (2 * i)%nat = Some (dashed_line c p)
           /\ new !! (2 * i + 1)%nat = Some (marker c)
           /\ c = (pose_x p + r * cos (b + pose_theta p),
                   pose_y p + r * sin (b + pose_theta p))
           /\ sqrt ((fst c - pose_x p) ^ 2 + (snd c - pose_y p) ^ 2)
              = Rabs r.
Proof.
  intros Hlen.
  destruct (draw_two_rows ranges bearings p ax Hlen) as [Hdraw Hcount].
  exists (artists (end_points ranges bearings p) p).
  split; [exact Hdraw|]. split; [exact Hcount|].
  intros i r b Hr Hb.
  exists (ray_point p (b + pose_theta p) r).
  assert (Hpt : end_points ranges bearings p !! i
                = Some (ray_point p (b + pose_theta p) r)).
  { unfold end_points. by rewrite lookup_zip_with, Hr, Hb. }
  destruct (artists_lookup _ p _ _ Hpt) as [Hline Hmark].
  split; [exact Hline|]. split; [exact Hmark|]. split; [done|].
  rewrite ray_point_distance, <- sqrt_Rsqr_abs. f_equal. unfold Rsqr. ring.
Qed.

(** A table without rows, or with a single row that is not empty, cannot
    be drawn: [draw_observation] raises IndexError and draws nothing. *)
Theorem draw_observation_short_table (z : list (list R)) (p : Pose)
    (ax : list PlotCall) :
  z = [] \/ (exists v row, z = [v :: row]) ->
  draw_observation z p ax = (Raise IndexError, ax).
Proof.
  intros [-> | (v & row & ->)]; [done|].
  unfold draw_observation, np_shape1, range. rewrite Nat2Z.id. done.
Qed.


(** The cache [last_z] of a sensor built by the constructor cannot be
    drawn, before or after an observation is taken: [draw_observation]
    raises IndexError on it and draws nothing. *)
Theorem draw_last_z_fails (s : Store) (FOV0 res0 max0 : R) (cov0 : Cov)
    (p0 p : Pose) (ax : list PlotCall) :
  obj_self s = init FOV0 res0 max0 cov0 p0 ->
  draw_observation (last_z (obj_self s)) p ax = (Raise IndexError, ax)
  /\ draw_observation (last_z (obj_self (snd (take_observation s)))) p ax
     = (Raise IndexError, ax).
Proof.
  intros Hinit.
  assert (Hz : last_z (obj_self s) = []) by (by rewrite Hinit).
  split; [by rewrite Hz|].
  destruct (take_observation_store s) as [-> | ->];
    cbn [drawn obj_self]; by rewrite Hz.
Qed.

(** ** The scenarios again *)

Lemma wall_intersection :
  intersection wall_sensor wall_map 10 0 0 = Ok (Some (5, 0)).
Proof.
  rewrite (intersection_eq wall_sensor wall_map 10 0 0 (5, -5) (5, 5)
             eq_refl eq_refl).
  assert (Hdiv : line_div wall_sensor (5, -5) (5, 5) 10 0 <> 0).
  { unfold line_div, det.
    cbn [fst snd wall_sensor init pose pose_x pose_y]. lra. }
  rewrite (Reqb_neq _ _ Hdiv), wall_cross_point by lra. reflexivity.
Qed.

Lemma wall_on_segment : on_segment wall_map 0 5 0.
Proof.
  exists (5, -5), (5, 5), 10.
  split; [reflexivity|]. split; [reflexivity|].
  split; [by rewrite wall_seg_lengths|]. cbn [fst snd].
  rewrite (sqrt_of_square ((5 - 5) ^ 2 + (-5 - 0) ^ 2) 5) by lra.
  rewrite (sqrt_of_square ((5 - 5) ^ 2 + (5 - 0) ^ 2) 5) by lra.
  lra.
Qed.

Lemma wall_valid_hit : valid_hit wall_sensor wall_map 1 0 5.
Proof.
  destruct wall_beam_end as (_ & E1 & _).
  destruct wall_beam_phi as (_ & P1 & _).
  unfold valid_hit. rewrite E1, P1. cbn [fst snd].
  replace (0 + 10 * 1) with 10 by lra. replace (0 + 10 * 0) with 0 by lra.
  exists 5, 0. split; [exact wall_intersection|].
  split; [exact wall_on_segment|]. split.
  - unfold same_side. by rewrite wall_hit_phi.
  - unfold dist_to. cbn [wall_sensor init pose pose_x pose_y].
    symmetry. apply sqrt_of_square; lra.
Qed.

Lemma wall_beam_phi_in_range : - PI <= beam_phi wall_sensor 1 <= PI.
Proof.
  destruct wall_beam_phi as (_ & -> & _). pose proof PI_RGT_0. lra.
Qed.

Lemma full_turn_beam_phi : beam_phi full_turn_sensor 0 = - PI.
Proof.
  pose proof PI_RGT_0. unfold beam_phi.
  cbn [full_turn_sensor init resolution FOV pose pose_theta INR].
  destruct (angle_warp_cases (0 * 1 - 2 * PI / 2 + 0))
    as [[Hc ->] | [[Hc ->] | [Hc ->]]]; lra.
Qed.



Lemma segment_check_window_witness :
  intersection wall_sensor wall_map 10 0 0 = Ok (Some (5, 0))
  /\ exists p1 p2,
       wall_map !! 0%nat = Some p1 /\ wall_map !! 1%nat = Some p2
       /\ (on_segment wall_map 0 5 0 <->
           - (5 / 100) < along p1 p2 5 0
           < sqrt ((fst p1 - fst p2) ^ 2 + (snd p1 - snd p2) ^ 2) + 5 / 100).
Proof.
  split; [exact wall_intersection|].
  exact (segment_check_window wall_sensor wall_map 10 0 0 5 0
           wall_intersection).
Defined.

Lemma draw_observation_two_rows_witness :
  exists new,
    draw_observation [[10; 5; 10]; [- (PI / 2); 0; PI / 2]] (mkPose 0 0 0) []
    = (Ok tt, [] ++ new)
    /\ length new = 6%nat.
Proof.
  destruct (draw_observation_two_rows [10; 5; 10] [- (PI / 2); 0; PI / 2]
              (mkPose 0 0 0) [] eq_refl) as (new & Hdraw & Hlen & _).
  exists new. split; [exact Hdraw|exact Hlen].
Defined.

Lemma draw_observation_short_table_witness :
  draw_observation [[10; 5; 10]] (mkPose 0 0 0) [] = (Raise IndexError, []).
Proof.
  apply draw_observation_short_table. right. by exists 10, [5; 10].
Defined.


Lemma draw_last_z_fails_witness :
  draw_observation
    (last_z (obj_self (snd (take_observation
                              (mkStore wall_sensor wall_map counting_rng)))))
    (mkPose 0 0 0) []
  = (Raise IndexError, []).
Proof.
  exact (proj2 (draw_last_z_fails (mkStore wall_sensor wall_map counting_rng)
                  PI (PI / 2) 10 zero_cov (mkPose 0 0 0) (mkPose 0 0 0) []
                  eq_refl)).
Defined.

(** ** The direction filter is exact for warped angles *)



(** ** [max_distance] is only a cap *)

Section Cap.
Variables (self : Laser2D) (map : Map) (i_beam : nat) (far : R).

Local Abbreviation far_self :=
  (mkLaser2D (FOV self) (resolution self) far (noise_cov self) (pose self)
     (last_z self)).

Hypothesis near_nonzero : max_distance self <> 0.
Hypothesis far_nonzero : far <> 0.

Lemma cap_line_div (p1 p2 : Point) :
  line_div far_self p1 p2 (fst (beam_end far_self i_beam))
    (snd (beam_end far_self i_beam)) * max_distance self
  = line_div self p1 p2 (fst (beam_end self i_beam))
      (snd (beam_end self i_beam)) * far.
Proof.
  unfold line_div, det, beam_end.
  change (beam_phi far_self i_beam) with (beam_phi self i_beam).
  cbn [fst snd pose max_distance]. ring.
Qed.

Lemma cap_line_div_zero (p1 p2 : Point) :
  line_div far_self p1 p2 (fst (beam_end far_self i_beam))
    (snd (beam_end far_self i_beam)) = 0
  <-> line_div self p1 p2 (fst (beam_end self i_beam))
        (snd (beam_end self i_beam)) = 0.
Proof.
  pose proof (cap_line_div p1 p2) as H. split; intros H0; rewrite H0 in H.
  - rewrite Rmult_0_l in H. symmetry in H.
    apply Rmult_integral in H as [H|H]; [done|by destruct far_nonzero].
  - rewrite Rmult_0_l in H.
    apply Rmult_integral in H as [H|H]; [done|by destruct near_nonzero].
Qed.

Lemma cap_cross_point (p1 p2 : Point) :
  line_div self p1 p2 (fst (beam_end self i_beam))
    (snd (beam_end self i_beam)) <> 0 ->
  cross_point far_self p1 p2 (fst (beam_end far_self i_beam))
    (snd (beam_end far_self i_beam))
  = cross_point self p1 p2 (fst (beam_end self i_beam))
      (snd (beam_end self i_beam)).
Proof.
  intros Hdiv.
  assert (Hdiv' : line_div far_self p1 p2 (fst (beam_end far_self i_beam))
                    (snd (beam_end far_self i_beam)) <> 0).
  { intros H0. by apply Hdiv, cap_line_div_zero. }
  revert Hdiv Hdiv'. unfold line_div, cross_point, det, beam_end.
  change (beam_phi far_self i_beam) with (beam_phi self i_beam).
  cbv zeta. cbn [fst snd pose max_distance].
  destruct p1 as [x1 y1], p2 as [x2 y2]. cbn [fst snd].
  set (c := cos (beam_phi self i_beam)). set (s := sin (beam_phi self i_beam)).
  set (px := pose_x (pose self)). set (py := pose_y (pose self)).
  set (M := max_distance self) in *.
  intros Hdiv Hdiv'.
  assert (Hk : (x1 - x2) * s - c * (y1 - y2) <> 0).
  { intros Hk. apply Hdiv.
    replace ((x1 - x2) * (py - (py + M * s)) - (px - (px + M * c)) * (y1 - y2))
      with (- M * ((x1 - x2) * s - c * (y1 - y2))) by ring.
    rewrite Hk. ring. }
  f_equal; field; repeat split; try done;
    match goal with
    | |- ?e <> 0 =>
        first [ replace e with (- M * ((x1 - x2) * s - c * (y1 - y2))) by ring
              | replace e with (- far * ((x1 - x2) * s - c * (y1 - y2)))
                  by ring ];
        apply Rmult_integral_contrapositive_currified; [lra|done]
    end.
Qed.

Lemma cap_valid_hit i_line dist :
  valid_hit far_self map i_beam i_line dist
  <-> valid_hit self map i_beam i_line dist.
Proof.
  assert (Hn : forall x y, hit_phi far_self x y = hit_phi self x y) by done.
  assert (Hd : forall x y, dist_to far_self x y = dist_to self x y) by done.
  split.
  - intros (x & y & Hint & Hseg & Hside & Hdist).
    destruct Hseg as (p1 & p2 & len & H1 & H2 & Hl & Hc).
    rewrite (intersection_eq far_self map _ _ _ _ _ H1 H2) in Hint.
    destruct (Reqb (line_div far_self p1 p2 _ _) 0) eqn:E; [done|].
    apply Reqb_false in E.
    assert (E' : line_div self p1 p2 (fst (beam_end self i_beam))
                   (snd (beam_end self i_beam)) <> 0).
    { intros H0. by apply E, cap_line_div_zero. }
    rewrite (cap_cross_point _ _ E') in Hint.
    exists x, y. split; [|split; [by exists p1, p2, len|done]].
    rewrite (intersection_eq self map _ _ _ _ _ H1 H2).
    by rewrite (Reqb_neq _ _ E').
  - intros (x & y & Hint & Hseg & Hside & Hdist).
    destruct Hseg as (p1 & p2 & len & H1 & H2 & Hl & Hc).
    rewrite (intersection_eq self map _ _ _ _ _ H1 H2) in Hint.
    destruct (Reqb (line_div self p1 p2 _ _) 0) eqn:E; [done|].
    apply Reqb_false in E.
    assert (E' : line_div far_self p1 p2 (fst (beam_end far_self i_beam))
                   (snd (beam_end far_self i_beam)) <> 0).
    { intros H0. by apply E, cap_line_div_zero. }
    rewrite <- (cap_cross_point _ _ E) in Hint.
    exists x, y. split; [|split; [by exists p1, p2, len|done]].
    rewrite (intersection_eq far_self map _ _ _ _ _ H1 H2).
    by rewrite (Reqb_neq _ _ E').
Qed.

Lemma cap_range :
  max_distance self <= far ->
  noiseless_range self map i_beam
  = Rmin (max_distance self) (noiseless_range far_self map i_beam).
Proof.
  intros Hle.
  destruct (beam_range_closest far_self map i_beam) as (Hin & Hmax & Hleast).
  cbn [max_distance] in Hin, Hmax.
  apply (closest_hit_unique self map i_beam);
    [apply beam_range_closest|].
  set (d := noiseless_range far_self map i_beam) in *.
  split; [|split].
  - unfold Rmin. destruct (Rle_dec (max_distance self) d); [by left|].
    destruct Hin as [Heq|(k & Hv)]; [lra|].
    right. exists k. by apply cap_valid_hit.
  - apply Rmin_l.
  - intros k dist Hv. apply cap_valid_hit in Hv.
    pose proof (Hleast k dist Hv). pose proof (Rmin_r (max_distance self) d).
    lra.
Qed.
End Cap.


